(** * mantaray: text-widget tags

  A shallow embedding of [mantaray/textwidget_tags.py]: the mIRC style-code
  parser [parse_text], the URL tagger [find_and_tag_urls], the click handler
  [_on_link_clicked] and the tag set-up [config_tags], together with the
  parts of Python's [re] and [str] and of [tkinter.Text] that they call. *)

From Stdlib Require Import String Ascii List Arith Bool Lia DecimalString.
Import ListNotations.
Local Open Scope string_scope.
Local Open Scope list_scope.

(** Python [str] values are modelled as [string], one [ascii] per character.
  The code only ever tests characters against ASCII literals, so a character
  outside that range behaves like any other character that is none of them. *)

(* ================================================================== *)
(** ** The fragment of Python's [str] used by the module *)
(* ================================================================== *)

Module PyStr.

(** [c in chars] for a one-character [c]. *)
Fixpoint mem (c : ascii) (chars : string) : bool :=
  match chars with
  | EmptyString => false
  | String d chars' => Ascii.eqb c d || mem c chars'
  end.

(** [s.startswith(p)] *)
Definition startswith (s p : string) : bool := String.prefix p s.

(** [s.lstrip(chars)] *)
Fixpoint lstrip (chars s : string) : string :=
  match s with
  | EmptyString => EmptyString
  | String c s' => if mem c chars then lstrip chars s' else s
  end.

(** [s.rstrip(chars)] *)
Fixpoint rstrip (chars s : string) : string :=
  match s with
  | EmptyString => EmptyString
  | String c s' =>
      match rstrip chars s' with
      | EmptyString => if mem c chars then EmptyString else String c EmptyString
      | t => String c t
      end
  end.

(** [s.split(sep)] for a one-character separator.  The list it returns is
    never empty: it is given as its first element and the others, so that
    [s.split(sep)[0]] is the first component. *)
Fixpoint split (sep : ascii) (s : string) : string * list string :=
  match s with
  | EmptyString => (EmptyString, [])
  | String c s' =>
      let (h, t) := split sep s' in
      if Ascii.eqb c sep then (EmptyString, h :: t) else (String c h, t)
  end.

Definition is_digit (c : ascii) : bool :=
  Nat.leb (nat_of_ascii "0") (nat_of_ascii c)
  && Nat.leb (nat_of_ascii c) (nat_of_ascii "9").

Definition digit_value (c : ascii) : nat := nat_of_ascii c - nat_of_ascii "0".

Fixpoint int_acc (acc : nat) (s : string) : option nat :=
  match s with
  | EmptyString => Some acc
  | String c s' =>
      if is_digit c then int_acc (10 * acc + digit_value c) s' else None
  end.

(** [int(s)] on decimal literals made of ASCII digits; [None] stands for
    [ValueError].  The other literals [int] accepts (sign, blanks,
    underscores) answer [None] here: the parser below never builds one. *)
Definition int (s : string) : option nat :=
  match s with
  | EmptyString => None
  | _ => int_acc 0 s
  end.

(** ["%d" % n] for a non-negative [n]. *)
Definition format_d (n : nat) : string :=
  NilEmpty.string_of_uint (Nat.to_uint n).

(** [bool(s)]: a string is true when it is not empty. *)
Definition truthy (s : string) : bool :=
  match s with
  | EmptyString => false
  | _ => true
  end.

End PyStr.

(* ================================================================== *)
(** ** The fragment of Python's [re] used by the module *)
(* ================================================================== *)

Module Re.

(** Patterns.  [Rep r lo hi] is the greedy [r{lo,hi}] (so [r?] is
    [Rep r 0 1]); [Group i r] is the capturing group opened by the [i]-th
    parenthesis. *)
Inductive regex : Type :=
| Chr (c : ascii)
| Range (lo hi : ascii)
| Cat (r1 r2 : regex)
| Alt (r1 r2 : regex)
| Rep (r : regex) (lo hi : nat)
| Group (i : nat) (r : regex).

Definition Opt (r : regex) : regex := Rep r 0 1.

(** Captured groups, most recent binding first. *)
Definition captures : Type := list (nat * string).

Fixpoint group (caps : captures) (i : nat) : option string :=
  match caps with
  | [] => None
  | (j, g) :: caps' => if Nat.eqb i j then Some g else group caps' i
  end.

Definition in_range (lo hi c : ascii) : bool :=
  Nat.leb (nat_of_ascii lo) (nat_of_ascii c)
  && Nat.leb (nat_of_ascii c) (nat_of_ascii hi).

(** The characters of [s] in front of its suffix [rest]. *)
Definition consumed (s rest : string) : string :=
  substring 0 (String.length s - String.length rest) s.

(** Backtracking matcher in continuation-passing style: [rmatch r s caps k]
    matches [r] at the start of [s] and hands the rest of the string and the
    captures to [k]; when [k] fails the next alternative is tried, in the
    order of Python's engine (left alternative first, longest repetition
    first). *)
Fixpoint rmatch {A : Type} (r : regex) (s : string) (caps : captures)
         (k : string -> captures -> option A) {struct r} : option A :=
  match r with
  | Chr c =>
      match s with
      | String c' s' => if Ascii.eqb c' c then k s' caps else None
      | EmptyString => None
      end
  | Range lo hi =>
      match s with
      | String c' s' => if in_range lo hi c' then k s' caps else None
      | EmptyString => None
      end
  | Cat r1 r2 => rmatch r1 s caps (fun s1 caps1 => rmatch r2 s1 caps1 k)
  | Alt r1 r2 =>
      match rmatch r1 s caps k with
      | Some x => Some x
      | None => rmatch r2 s caps k
      end
  | Rep r' lo hi =>
      (fix rep (lo hi : nat) (s : string) (caps : captures) {struct hi}
         : option A :=
         match hi with
         | 0 => match lo with 0 => k s caps | S _ => None end
         | S hi' =>
             match rmatch r' s caps
                          (fun s1 caps1 => rep (Nat.pred lo) hi' s1 caps1) with
             | Some x => Some x
             | None => match lo with 0 => k s caps | S _ => None end
             end
         end) lo hi s caps
  | Group i r' =>
      rmatch r' s caps (fun s1 caps1 => k s1 ((i, consumed s s1) :: caps1))
  end.

(** [re.match(r, s)]: the matched text and what follows it. *)
Definition re_match (r : regex) (s : string) : option (string * string) :=
  rmatch r s [] (fun rest _ => Some (consumed s rest, rest)).

(** [re.fullmatch(r, s)]: the match object, reduced to its captures. *)
Definition fullmatch (r : regex) (s : string) : option captures :=
  rmatch r s []
         (fun rest caps =>
            match rest with
            | EmptyString => Some caps
            | _ => None
            end).

(** [m.groups()] for a pattern with [n] groups. *)
Definition groups (n : nat) (caps : captures) : list (option string) :=
  map (group caps) (seq 1 n).

(** The scan behind [re.split("(" + r + ")", text)]: [piece] is the text
    gathered since the previous match.  Every match found is at least one
    character long for the pattern split on below, so the treatment of
    empty matches is left out: an empty match counts as no match.  Each
    step consumes a character, and [fuel] bounds the number of steps. *)
Fixpoint split_loop (fuel : nat) (r : regex) (piece s : string) : list string :=
  match fuel with
  | 0 => [piece ++ s]%string
  | S fuel' =>
      match re_match r s with
      | Some (String c m, rest) =>
          piece :: String c m :: split_loop fuel' r EmptyString rest
      | _ =>
          match s with
          | EmptyString => [piece]
          | String c s' =>
              split_loop fuel' r (piece ++ String c EmptyString)%string s'
          end
      end
  end.

(** The scan with the fuel it needs: one step per character, and one more
    to close the last piece. *)
Definition split_from (r : regex) (piece s : string) : list string :=
  split_loop (S (String.length s)) r piece s.

(** [re.split("(" + r + ")", text)]: the pieces of [text] between the
    matches of [r], with the matched texts in between. *)
Definition split_captured (r : regex) (text : string) : list string :=
  split_from r EmptyString text.

End Re.

(* ================================================================== *)
(** ** The part of [tkinter.Text] used by the module *)
(* ================================================================== *)

Module Tk.

(** A text widget: its characters, and the tag ranges added to it, oldest
    first.  An index is the number of characters in front of it. *)
Record text : Type := mkText {
  content : string;
  tags : list (string * nat * nat)
}.

Fixpoint skip (n : nat) (s : string) : string :=
  match n, s with
  | 0, _ => s
  | S _, EmptyString => EmptyString
  | S n', String _ s' => skip n' s'
  end.

Fixpoint take (n : nat) (s : string) : string :=
  match n, s with
  | 0, _ => EmptyString
  | S _, EmptyString => EmptyString
  | S n', String c s' => String c (take n' s')
  end.

(** [w.get(i, j)] *)
Definition get (w : text) (i j : nat) : string :=
  take (j - i) (skip i (content w)).

Definition newline : ascii := "010"%char.

Fixpoint line_length (s : string) : nat :=
  match s with
  | EmptyString => 0
  | String c s' => if Ascii.eqb c newline then 0 else S (line_length s')
  end.

(** The index ["{i} lineend"]: the end of the line [i] is on. *)
Definition lineend (w : text) (i : nat) : nat :=
  i + line_length (skip i (content w)).

(** [w.tag_add(name, i, j)]; a range without characters adds nothing. *)
Definition tag_add (w : text) (name : string) (i j : nat) : text :=
  if Nat.ltb i j then mkText (content w) (tags w ++ [(name, i, j)]) else w.

Definition is_word (c : ascii) : bool :=
  Re.in_range "a" "z" c || Re.in_range "A" "Z" c || Re.in_range "0" "9" c
  || Ascii.eqb c "_".

(** The first index in [start, stop) at which [r] matches at the beginning
    of a word; [s] is the text from index [pos] on and [behind] tells
    whether the character in front of it is a word character. *)
Fixpoint search_word (r : Re.regex) (behind : bool) (s : string)
         (pos start stop : nat) : option nat :=
  match s with
  | EmptyString => None
  | String c s' =>
      if Nat.leb start pos && Nat.ltb pos stop && negb behind
         && match Re.re_match r s with Some _ => true | None => false end
      then Some pos
      else search_word r (is_word c) s' (S pos) start stop
  end.

(** The scan behind [tag_prevrange]: [best] is the latest range found so
    far. *)
Fixpoint prevrange (l : list (string * nat * nat)) (name : string)
         (index : nat) (best : option (nat * nat)) : option (nat * nat) :=
  match l with
  | [] => best
  | (n, i, j) :: l' =>
      let later :=
        match best with
        | None => true
        | Some (i0, _) => Nat.ltb i0 i
        end in
      prevrange l' name index
                (if String.eqb n name && Nat.ltb i index && later
                 then Some (i, j) else best)
  end.

(** [w.tag_prevrange(name, index)]: among the ranges of the tag that start
    before [index], the one that starts last; [None] is the empty tuple.
    The ranges are those added with [tag_add]; Tk joins ranges that overlap
    or touch, so this is the widget's answer when the ranges of the tag are
    apart from each other. *)
Definition tag_prevrange (w : text) (name : string) (index : nat)
  : option (nat * nat) :=
  prevrange (tags w) name index None.

(** The display options of a tag that the module sets; [None] is an option
    left as it was. *)
Record options : Type := mkOptions {
  o_underline : option bool;
  o_foreground : option string;
  o_background : option string
}.

Definition no_options : options := mkOptions None None None.

Definition or_else {A : Type} (x y : option A) : option A :=
  match x with
  | Some _ => x
  | None => y
  end.

(** The options [new] on top of the options [old]. *)
Definition merge (new old : options) : options :=
  mkOptions (or_else (o_underline new) (o_underline old))
            (or_else (o_foreground new) (o_foreground old))
            (or_else (o_background new) (o_background old)).

(** A text widget with its configuration: the colours and the cursor of the
    widget, the tags that are defined, lowest priority first, the options
    given to tags and the bindings of tags to handlers [H], latest first. *)
Record window (H : Type) : Type := mkWindow {
  body : text;
  w_fg : string;
  w_bg : string;
  w_cursor : string;
  tag_names : list string;
  tag_opts : list (string * options);
  bindings : list (string * string * H)
}.

Arguments mkWindow {H}.
Arguments body {H}.
Arguments w_fg {H}.
Arguments w_bg {H}.
Arguments w_cursor {H}.
Arguments tag_names {H}.
Arguments tag_opts {H}.
Arguments bindings {H}.

Definition defined (name : string) (names : list string) : bool :=
  existsb (String.eqb name) names.

(** A tag that is defined for the first time gets the highest priority. *)
Definition define (name : string) (names : list string) : list string :=
  if defined name names then names else names ++ [name].

Fixpoint remove (name : string) (names : list string) : list string :=
  match names with
  | [] => []
  | n :: names' =>
      if String.eqb n name then remove name names'
      else n :: remove name names'
  end.

Fixpoint insert_below (name below : string) (names : list string)
  : list string :=
  match names with
  | [] => []
  | n :: names' =>
      if String.eqb n below then name :: n :: names'
      else n :: insert_below name below names'
  end.

Fixpoint insert_above (name above : string) (names : list string)
  : list string :=
  match names with
  | [] => []
  | n :: names' =>
      if String.eqb n above then n :: name :: names'
      else n :: insert_above name above names'
  end.

(** The priority order after [tag lower name below]: [name] comes just
    below [below]; [None] is the [TclError] for a tag that is not defined. *)
Definition lower (name below : string) (names : list string)
  : option (list string) :=
  if defined name names && defined below names then
    if String.eqb name below then Some names
    else Some (insert_below name below (remove name names))
  else None.

(** The priority order after [tag raise name above]. *)
Definition raise (name above : string) (names : list string)
  : option (list string) :=
  if defined name names && defined above names then
    if String.eqb name above then Some names
    else Some (insert_above name above (remove name names))
  else None.

Fixpoint lookup {A : Type} (name : string) (l : list (string * A)) : option A :=
  match l with
  | [] => None
  | (n, x) :: l' => if String.eqb n name then Some x else lookup name l'
  end.

(** The options of a tag. *)
Definition tag_cget {H : Type} (w : window H) (name : string) : options :=
  match lookup name (tag_opts w) with
  | Some o => o
  | None => no_options
  end.

(** [w.config(fg=..., bg=...)] *)
Definition config_colors {H : Type} (w : window H) (fg bg : string)
  : window H :=
  mkWindow (body w) fg bg (w_cursor w) (tag_names w) (tag_opts w) (bindings w).

(** [w.config(cursor=...)] *)
Definition config_cursor {H : Type} (w : window H) (cursor : string)
  : window H :=
  mkWindow (body w) (w_fg w) (w_bg w) cursor (tag_names w) (tag_opts w)
           (bindings w).

(** [w.tag_configure(name, ...)] *)
Definition tag_configure {H : Type} (w : window H) (name : string)
           (o : options) : window H :=
  mkWindow (body w) (w_fg w) (w_bg w) (w_cursor w)
           (define name (tag_names w))
           ((name, merge o (tag_cget w name)) :: tag_opts w)
           (bindings w).

Definition set_names {H : Type} (w : window H) (names : list string)
  : window H :=
  mkWindow (body w) (w_fg w) (w_bg w) (w_cursor w) names (tag_opts w)
           (bindings w).

(** [w.tag_lower(name, below)] *)
Definition tag_lower {H : Type} (w : window H) (name below : string)
  : option (window H) :=
  option_map (set_names w) (lower name below (tag_names w)).

(** [w.tag_raise(name, above)] *)
Definition tag_raise {H : Type} (w : window H) (name above : string)
  : option (window H) :=
  option_map (set_names w) (raise name above (tag_names w)).

(** [w.tag_bind(name, sequence, handler)] *)
Definition tag_bind {H : Type} (w : window H) (name sequence : string)
           (handler : H) : window H :=
  mkWindow (body w) (w_fg w) (w_bg w) (w_cursor w)
           (define name (tag_names w)) (tag_opts w)
           ((name, sequence, handler) :: bindings w).

End Tk.

(* ================================================================== *)
(** ** [mantaray/textwidget_tags.py] *)
(* ================================================================== *)

Module TextwidgetTags.
Import PyStr Re.

Definition x02 : ascii := "002"%char.
Definition x03 : ascii := "003"%char.
Definition x0f : ascii := "015"%char.
Definition x1f : ascii := "031"%char.

(** [_MIRC_COLORS], a dict from colour number to colour. *)
Definition _MIRC_COLORS : list (nat * string) :=
  [ (0, "#ffffff"); (1, "#000000"); (2, "#00007f"); (3, "#009300");
    (4, "#ff0000"); (5, "#7f0000"); (6, "#9c009c"); (7, "#fc7f00");
    (8, "#ffff00"); (9, "#00fc00"); (10, "#009393"); (11, "#00ffff");
    (12, "#0000fc"); (13, "#ff00ff"); (14, "#7f7f7f"); (15, "#d2d2d2") ].

(** [key in d] *)
Definition dict_in {V : Type} (key : nat) (d : list (nat * V)) : bool :=
  existsb (fun kv => Nat.eqb key (fst kv)) d.

Definition digit : regex := Range "0" "9".

(** [r"\x02|\x1f|\x03[0-9]{1,2}(?:,[0-9]{1,2})?|\x0f"] *)
Definition style_regex : regex :=
  Alt (Chr x02)
 (Alt (Chr x1f)
 (Alt (Cat (Chr x03) (Cat (Rep digit 1 2) (Opt (Cat (Chr ",") (Rep digit 1 2)))))
      (Chr x0f))).

(** [r"\x03([0-9]{1,2})(,[0-9]{1,2})?"] *)
Definition color_regex : regex :=
  Cat (Chr x03)
 (Cat (Group 1 (Rep digit 1 2))
      (Opt (Group 2 (Cat (Chr ",") (Rep digit 1 2))))).

Inductive exn : Type :=
| AssertionError
| TypeError
| ValueError.

(** The three local variables [fg], [bg] and [underline]. *)
Record style : Type := mkStyle {
  fg : option nat;
  bg : option nat;
  underline : bool
}.

Definition initial : style := mkStyle None None false.

(** One yielded pair [(substring, tags)]. *)
Definition run : Type := (string * list string)%type.

(** [parts[0::2]] and [parts[1::2]] *)
Fixpoint slice_even {A : Type} (l : list A) : list A :=
  match l with
  | [] => []
  | x :: l' =>
      x :: match l' with
           | [] => []
           | _ :: l'' => slice_even l''
           end
  end.

Definition slice_odd {A : Type} (l : list A) : list A :=
  match l with
  | [] => []
  | _ :: l' => slice_even l'
  end.

(** [n if n in _MIRC_COLORS else None] *)
Definition palette (n : nat) : option nat :=
  if dict_in n _MIRC_COLORS then Some n else None.

(** The [if]/[elif] chain of the loop body: the style after [style_spec],
    or the exception it raises. *)
Definition apply_spec (st : style) (style_spec : string) : exn + style :=
  if negb (truthy style_spec) then inr st
  else if String.eqb style_spec (String x02 EmptyString) then inr st
  else if String.eqb style_spec (String x1f EmptyString) then
    inr (mkStyle (fg st) (bg st) true)
  else if startswith style_spec (String x03 EmptyString) then
    match fullmatch color_regex style_spec with
    | None => inl AssertionError
    | Some m =>
        match groups 2 m with
        | [Some fg_spec; bg_spec] =>
            match int fg_spec with
            | None => inl ValueError
            | Some n =>
                let fg' := palette n in
                match bg_spec with
                | None => inr (mkStyle fg' (bg st) (underline st))
                | Some b =>
                    match int (lstrip "," b) with
                    | None => inl ValueError
                    | Some n' => inr (mkStyle fg' (palette n') (underline st))
                    end
                end
            end
        | _ => inl TypeError
        end
    end
  else if String.eqb style_spec (String x0f EmptyString) then inr initial
  else inl ValueError.

(** The tag list built for a non-empty substring. *)
Definition tags_of (st : style) : list string :=
  (match fg st with
   | Some n => ["foreground-" ++ format_d n]%string
   | None => []
   end)
  ++ (match bg st with
      | Some n => ["background-" ++ format_d n]%string
      | None => []
      end)
  ++ (if underline st then ["underline"] else []).

(** What one iteration yields. *)
Definition emit (st : style) (substring : string) : list run :=
  if truthy substring then [(substring, tags_of st)] else [].

(** The [for] loop of the generator: the pairs yielded, and the exception
    that ended the iteration, if any. *)
Fixpoint loop (st : style) (pairs : list (string * string))
  : list run * option exn :=
  match pairs with
  | [] => ([], None)
  | (style_spec, substring) :: pairs' =>
      match apply_spec st style_spec with
      | inl e => ([], Some e)
      | inr st' =>
          let (ys, e) := loop st' pairs' in
          (emit st' substring ++ ys, e)
      end
  end.

(** [parts]: the empty string in front of the result of [re.split]. *)
Definition parts_of (text : string) : list string :=
  EmptyString :: split_captured style_regex text.

(** [zip(parts[0::2], parts[1::2])] *)
Definition zip_parts (parts : list string) : list (string * string) :=
  combine (slice_even parts) (slice_odd parts).

Definition parse_text (text : string) : list run * option exn :=
  let parts := parts_of text in
  if Nat.eqb (Nat.modulo (List.length parts) 2) 0 then
    loop initial (zip_parts parts)
  else ([], Some AssertionError).

(** *** [find_and_tag_urls] *)

Definition apostrophe : ascii := "039"%char.
Definition double_quote : ascii := "034"%char.
Definition backtick : ascii := "096"%char.

(** The four [url = url.split(...)[0]] lines. *)
Definition cut_url (url : string) : string :=
  let url := fst (split " " url) in
  let url := fst (split apostrophe url) in
  let url := fst (split double_quote url) in
  fst (split backtick url).

(** The three [rstrip] lines. *)
Definition strip_url (url : string) : string :=
  let url := rstrip ".,?!" url in
  let url := if negb (mem "(" url) then rstrip ")" url else url in
  rstrip ".,?!" url.

Section FindAndTagUrls.

(** [textwidget.search(r"\mhttps?://[a-z0-9:]", start, end, nocase=True,
    regexp=True)], with [None] for the empty string it returns when
    nothing is found.  The function is Tk's; the loop below is modelled
    for any such function. *)
Variable search : Tk.text -> nat -> nat -> option nat.

(** The body of the [while True] loop: [None] at the [break], and
    otherwise the widget and the next [search_start]. *)
Definition tag_next_url (textwidget : Tk.text) (search_start stop : nat)
  : option (Tk.text * nat) :=
  match search textwidget search_start stop with
  | None => None
  | Some match_start =>
      let url :=
        Tk.get textwidget match_start (Tk.lineend textwidget match_start) in
      let url := strip_url (cut_url url) in
      let match_end := match_start + String.length url in
      Some (Tk.tag_add textwidget "url" match_start match_end,
            match_end + 1)
  end.

(** The loop, for at most [fuel] iterations. *)
Fixpoint url_loop (fuel : nat) (textwidget : Tk.text)
         (search_start stop : nat) : Tk.text :=
  match fuel with
  | 0 => textwidget
  | S fuel' =>
      match tag_next_url textwidget search_start stop with
      | None => textwidget
      | Some (textwidget', search_start') =>
          url_loop fuel' textwidget' search_start' stop
      end
  end.

Definition find_and_tag_urls (fuel : nat) (textwidget : Tk.text)
           (start stop : nat) : Tk.text :=
  url_loop fuel textwidget start stop.

End FindAndTagUrls.

(** *** [_on_link_clicked] *)

(** What the handler reads of a [tkinter.Event]: the widget, and its index
    ["current"], the character under the mouse. *)
Record event : Type := mkEvent {
  widget : Tk.text;
  current : nat
}.

(** [link_click_callback] is called for its effect; [R] is what the call
    does. *)
Definition _on_link_clicked {R : Type} (tag : string)
           (link_click_callback : string -> string -> R) (ev : event)
  : exn + R :=
  match Tk.tag_prevrange (widget ev) tag (current ev + 1) with
  | None => inl AssertionError
  | Some (start, stop) =>
      let text := Tk.get (widget ev) start stop in
      inr (link_click_callback tag text)
  end.

(** *** [config_tags] *)

(** [d[key]]; [None] is the [KeyError]. *)
Fixpoint dict_get {V : Type} (key : nat) (d : list (nat * V)) : option V :=
  match d with
  | [] => None
  | (k, v) :: d' => if Nat.eqb k key then Some v else dict_get key d'
  end.

(** [FOREGROUND = _MIRC_COLORS[0]] *)
Definition FOREGROUND : string :=
  match dict_get 0 _MIRC_COLORS with
  | Some c => c
  | None => EmptyString
  end.

Definition BACKGROUND : string := "#242323".

(** The three kinds of handler that [config_tags] binds:
    [partial(_on_link_clicked, tag, link_click_callback)] and the two
    lambdas that set the cursor. *)
Inductive handler (R : Type) : Type :=
| LinkClicked (tag : string) (link_click_callback : string -> string -> R)
| SetCursor (cursor : string).

Arguments LinkClicked {R}.
Arguments SetCursor {R}.

(** A [for] loop whose body can raise. *)
Fixpoint for_each {A W : Type} (body : W -> A -> option W) (l : list A)
         (w : W) : option W :=
  match l with
  | [] => Some w
  | x :: l' =>
      match body w x with
      | Some w' => for_each body l' w'
      | None => None
      end
  end.

Definition underlined : Tk.options := Tk.mkOptions (Some true) None None.
Definition foreground (c : string) : Tk.options :=
  Tk.mkOptions None (Some c) None.
Definition background (c : string) : Tk.options :=
  Tk.mkOptions None None (Some c).

(** The body of the loop over [_MIRC_COLORS.items()]. *)
Definition config_color {H : Type} (w : Tk.window H)
           (item : nat * string) : option (Tk.window H) :=
  let (number, hexcolor) := item in
  let fg_tag := ("foreground-" ++ format_d number)%string in
  let bg_tag := ("background-" ++ format_d number)%string in
  let w := Tk.tag_configure w fg_tag (foreground hexcolor) in
  let w := Tk.tag_configure w bg_tag (background hexcolor) in
  match Tk.tag_raise w fg_tag "sent-privmsg" with
  | None => None
  | Some w =>
      match Tk.tag_raise w bg_tag "sent-privmsg" with
      | None => None
      | Some w =>
          match Tk.tag_raise w fg_tag "received-privmsg" with
          | None => None
          | Some w => Tk.tag_raise w bg_tag "received-privmsg"
          end
      end
  end.

(** [None] is a [TclError] raised on the way. *)
Definition config_tags {R : Type} (textwidget : Tk.window (handler R))
           (link_click_callback : string -> string -> R)
  : option (Tk.window (handler R)) :=
  let w := Tk.config_colors textwidget FOREGROUND BACKGROUND in
  let w := Tk.tag_configure w "url" underlined in
  let w := Tk.tag_configure w "underline" underlined in
  let w := Tk.tag_configure w "pinged" (foreground "#a1e37b") in
  let w := Tk.tag_configure w "error" (foreground "#bd2f2f") in
  let w := Tk.tag_configure w "info" (foreground "#FFE6C7") in
  let w := Tk.tag_configure w "history-selection" (background "#5a5c50") in
  let w := Tk.tag_configure w "channel" (foreground "#f7e452") in
  let w := Tk.tag_configure w "self-nick"
                            (Tk.merge (foreground "#de8c28") underlined) in
  let w := Tk.tag_configure w "other-nick"
                            (Tk.merge (foreground "#e7b678") underlined) in
  let w := Tk.tag_configure w "received-privmsg" (foreground FOREGROUND) in
  let w := Tk.tag_configure w "sent-privmsg" (foreground FOREGROUND) in
  match for_each (fun w lower_tag => Tk.tag_lower w lower_tag "pinged")
                 ["info"; "error"; "sent-privmsg"; "received-privmsg"] w with
  | None => None
  | Some w =>
      match for_each (fun w upper_tag => Tk.tag_raise w upper_tag "pinged")
                     ["history-selection"; "channel"; "self-nick";
                      "other-nick"] w with
      | None => None
      | Some w =>
          match for_each config_color _MIRC_COLORS w with
          | None => None
          | Some w =>
              let default_cursor := Tk.w_cursor w in
              for_each
                (fun w tag =>
                   let w :=
                     Tk.tag_bind w tag "<Button-1>"
                                 (LinkClicked tag link_click_callback) in
                   let w := Tk.tag_bind w tag "<Enter>" (SetCursor "hand2") in
                   Some (Tk.tag_bind w tag "<Leave>"
                                     (SetCursor default_cursor)))
                ["url"; "other-nick"] w
          end
      end
  end.

Definition nocase (lower upper : ascii) : regex :=
  Alt (Chr lower) (Chr upper).

(** [https?://[a-z0-9:]], matched without regard to case. *)
Definition url_regex : regex :=
  Cat (nocase "h" "H")
 (Cat (nocase "t" "T")
 (Cat (nocase "t" "T")
 (Cat (nocase "p" "P")
 (Cat (Opt (nocase "s" "S"))
 (Cat (Chr ":")
 (Cat (Chr "/")
 (Cat (Chr "/")
      (Alt (Range "a" "z")
      (Alt (Range "A" "Z")
      (Alt (Range "0" "9") (Chr ":"))))))))))).

(** A search function to run the loop with: the first index in the range
    where the pattern matches at the beginning of a word. *)
Definition search_url (w : Tk.text) (start stop : nat) : option nat :=
  Tk.search_word url_regex false (Tk.content w) 0 start stop.

End TextwidgetTags.

(* ================================================================== *)
(** ** Vocabulary of the specification *)
(* ================================================================== *)

Module Spec.
Import PyStr Re TextwidgetTags.

(** One or two leading decimal digits, the longest run first. *)
Definition digits12 (s : string) : option (string * string) :=
  match s with
  | String d1 s1 =>
      if is_digit d1 then
        match s1 with
        | String d2 s2 =>
            if is_digit d2 then Some (String d1 (String d2 EmptyString), s2)
            else Some (String d1 EmptyString, s1)
        | EmptyString => Some (String d1 EmptyString, s1)
        end
      else None
  | EmptyString => None
  end.

(** A comma followed by one or two digits. *)
Definition comma_digits12 (s : string) : option (string * string) :=
  match s with
  | String c s1 =>
      if Ascii.eqb c "," then
        match digits12 s1 with
        | Some (ds, s2) => Some (String c ds, s2)
        | None => None
        end
      else None
  | EmptyString => None
  end.

(** The style control sequence that [s] starts with, and what follows it:
    [\x02], [\x1f], [\x0f], or [\x03] with its digit arguments. *)
Definition style_code (s : string) : option (string * string) :=
  match s with
  | EmptyString => None
  | String c s1 =>
      if Ascii.eqb c x02 || Ascii.eqb c x1f || Ascii.eqb c x0f
      then Some (String c EmptyString, s1)
      else if Ascii.eqb c x03 then
        match digits12 s1 with
        | None => None
        | Some (fg_digits, s2) =>
            match comma_digits12 s2 with
            | Some (bg_part, s3) =>
                Some (String x03 (fg_digits ++ bg_part)%string, s3)
            | None => Some (String x03 fg_digits, s2)
            end
        end
      else None
  end.

Definition starts_digit (t : string) : bool :=
  match t with
  | String c _ => is_digit c
  | EmptyString => false
  end.

(** [s] contains no control byte: no [\x02], no [\x1f], no [\x0f], and no
    [\x03] in front of a digit (a [\x03] that starts no colour sequence is
    ordinary text). *)
Fixpoint plain (s : string) : bool :=
  match s with
  | EmptyString => true
  | String c s' =>
      negb (Ascii.eqb c x02) && negb (Ascii.eqb c x1f)
      && negb (Ascii.eqb c x0f)
      && negb (Ascii.eqb c x03 && starts_digit s')
      && plain s'
  end.

(** [s] with every style control sequence removed, reading left to right;
    [skip] counts the characters of the current sequence still to drop. *)
Fixpoint strip_from (skip : nat) (s : string) : string :=
  match s with
  | EmptyString => EmptyString
  | String c s' =>
      match skip with
      | S n => strip_from n s'
      | 0 =>
          match style_code s with
          | Some (m, _) => strip_from (Nat.pred (String.length m)) s'
          | None => String c (strip_from 0 s')
          end
      end
  end.

Definition strip_codes (s : string) : string := strip_from 0 s.

(** The pairs the loop of [parse_text] runs over when the scan has reached
    [s], with [spec] the last control sequence read and [piece] the text
    gathered after it. *)
Definition pairs_from (spec piece s : string) : list (string * string) :=
  zip_parts (spec :: split_from style_regex piece s).

(** The meaning of a control sequence. *)
Inductive code : Type :=
| Bold
| Underline
| Reset
| Color (fg_index : nat) (bg_index : option nat).

Fixpoint number_acc (acc : nat) (ds : string) : nat :=
  match ds with
  | EmptyString => acc
  | String c ds' => number_acc (10 * acc + digit_value c) ds'
  end.

(** The value of a string of decimal digits. *)
Definition number (ds : string) : nat := number_acc 0 ds.

(** Reading a control sequence. *)
Definition decode (m : string) : option code :=
  match m with
  | EmptyString => None
  | String c m1 =>
      if Ascii.eqb c x03 then
        match digits12 m1 with
        | Some (fg_digits, EmptyString) => Some (Color (number fg_digits) None)
        | Some (fg_digits, m2) =>
            match comma_digits12 m2 with
            | Some (String _ bg_digits, EmptyString) =>
                Some (Color (number fg_digits) (Some (number bg_digits)))
            | _ => None
            end
        | None => None
        end
      else
        match m1 with
        | EmptyString =>
            if Ascii.eqb c x02 then Some Bold
            else if Ascii.eqb c x1f then Some Underline
            else if Ascii.eqb c x0f then Some Reset
            else None
        | _ => None
        end
  end.

(** One or two decimal digits. *)
Definition is_digits12 (ds : string) : bool :=
  match ds with
  | String d1 EmptyString => is_digit d1
  | String d1 (String d2 EmptyString) => is_digit d1 && is_digit d2
  | _ => false
  end.

(** The control sequences and what they mean. *)
Inductive control_sequence : string -> code -> Prop :=
| cs_bold : control_sequence (String x02 EmptyString) Bold
| cs_underline : control_sequence (String x1f EmptyString) Underline
| cs_reset : control_sequence (String x0f EmptyString) Reset
| cs_fg (fgd : string) :
    is_digits12 fgd = true ->
    control_sequence (String x03 fgd) (Color (number fgd) None)
| cs_fg_bg (fgd bgd : string) :
    is_digits12 fgd = true ->
    is_digits12 bgd = true ->
    control_sequence (String x03 (fgd ++ String "," bgd)%string)
                     (Color (number fgd) (Some (number bgd))).

(** An index into the 16-entry palette; an index outside it is no colour. *)
Definition palette16 (n : nat) : option nat :=
  if Nat.leb n 15 then Some n else None.

(** The style after a control sequence. *)
Definition effect (st : style) (c : code) : style :=
  match c with
  | Bold => st
  | Underline => mkStyle (fg st) (bg st) true
  | Reset => mkStyle None None false
  | Color f None => mkStyle (palette16 f) (bg st) (underline st)
  | Color f (Some b) => mkStyle (palette16 f) (palette16 b) (underline st)
  end.

(** The style after the control sequences [specs], read left to right. *)
Definition style_after (st : style) (specs : list string) : style :=
  fold_left (fun st spec =>
               match decode spec with
               | Some c => effect st c
               | None => st
               end) specs st.

(** The style of the pair at index [i]: the style after the control
    sequences of the pairs [0..i]. *)
Definition style_at (pairs : list (string * string)) (i : nat) : style :=
  style_after initial (map fst (firstn (S i) pairs)).

(** A number in decimal digits. *)
Definition decimal (n : nat) : string :=
  NilEmpty.string_of_uint (Nat.to_uint n).

(** The tags that show a style: the foreground, the background and the
    underlining, in this order, each only when it is set. *)
Definition style_tags (st : style) : list string :=
  (match fg st with
   | Some n => [("foreground-" ++ decimal n)%string]
   | None => []
   end)
  ++ (match bg st with
      | Some n => [("background-" ++ decimal n)%string]
      | None => []
      end)
  ++ (match underline st with
      | true => ["underline"]
      | false => []
      end).

(** The text of the pair at index [i]. *)
Definition text_at (pairs : list (string * string)) (i : nat) : string :=
  snd (nth i pairs (EmptyString, EmptyString)).

(** The runs of a list of (control sequence, text) pairs: for each pair
    whose text is not empty, in order, that text with the tags of the style
    of the pair. *)
Definition runs_of (pairs : list (string * string)) : list run :=
  flat_map (fun i =>
              match text_at pairs i with
              | EmptyString => []
              | t => [(t, style_tags (style_at pairs i))]
              end)
           (seq 0 (List.length pairs)).

(** The number of pairs in front of index [j] whose text is not empty: the
    place, among the runs, of the run of the pair at index [j]. *)
Definition runs_before (pairs : list (string * string)) (j : nat) : nat :=
  List.length
    (filter (fun p : string * string => negb (String.eqb (snd p) EmptyString))
            (firstn j pairs)).

(** The first component of the pair at index [i]. *)
Definition spec_at (pairs : list (string * string)) (i : nat) : string :=
  fst (nth i pairs (EmptyString, EmptyString)).

(** The same runs as one left-to-right pass that carries the style. *)
Fixpoint scan (st : style) (pairs : list (string * string)) : list run :=
  match pairs with
  | [] => []
  | (spec, substring) :: pairs' =>
      let st' := style_after st [spec] in
      emit st' substring ++ scan st' pairs'
  end.

(** A first component of the pairs that the loop can meet: the empty
    string at the beginning of the text, or a control sequence. *)
Definition spec_ok (spec : string) : Prop :=
  spec = EmptyString \/ exists c, control_sequence spec c.

(** The strings of [l] joined, with nothing in between. *)
Definition join (l : list string) : string :=
  fold_right String.append EmptyString l.

Definition starts_comma_digit (t : string) : bool :=
  match t with
  | String c t' => Ascii.eqb c "," && starts_digit t'
  | EmptyString => false
  end.

(** The digits [ds] of a control sequence are not continued by [t]: two
    digits are as many as are read, and after one digit [t] must not start
    with another. *)
Definition ends_digits (ds t : string) : bool :=
  negb (Nat.eqb (String.length ds) 1 && starts_digit t).

(** Control sequences that leave the foreground, the background, the
    underlining as they are. *)
Definition keeps_fg (spec : string) : bool :=
  match decode spec with
  | Some (Color _ _) | Some Reset => false
  | _ => true
  end.

Definition keeps_bg (spec : string) : bool :=
  match decode spec with
  | Some (Color _ (Some _)) | Some Reset => false
  | _ => true
  end.

Definition keeps_underline (spec : string) : bool :=
  match decode spec with
  | Some Reset => false
  | _ => true
  end.

(** [u] is a prefix of [s]. *)
Definition prefix_of (u s : string) : Prop :=
  exists r, s = (u ++ r)%string.

(** Every character of [s] is one of [chars]. *)
Fixpoint all_in (chars s : string) : bool :=
  match s with
  | EmptyString => true
  | String c s' => mem c chars && all_in chars s'
  end.

(** The last character of [s] is one of [chars]. *)
Fixpoint ends_in (chars s : string) : bool :=
  match s with
  | EmptyString => false
  | String c EmptyString => mem c chars
  | String _ s' => ends_in chars s'
  end.

(** The URL that [find_and_tag_urls] takes at index [i] of a widget. *)
Definition url_at (w : Tk.text) (i : nat) : string :=
  strip_url (cut_url (Tk.get w i (Tk.lineend w i))).

(** A tag range named [url] that covers exactly the URL taken at its
    first index. *)
Definition url_tag (w : Tk.text) (tag : string * nat * nat) : Prop :=
  let '(name, i, j) := tag in
  name = "url"
  /\ j = i + String.length (url_at w i)
  /\ Tk.get w i j = url_at w i.

(** A line of chat with two URLs in it. *)
Definition sample_widget : Tk.text :=
  Tk.mkText "see (http://example.com/a). and HTTPS://x.org/wiki_(y)), ok" [].

(** A search that answers inside the range it is given. *)
Definition in_range_search (search : Tk.text -> nat -> nat -> option nat)
  : Prop :=
  forall w a b i, search w a b = Some i -> a <= i /\ i < b.

(** Text that can follow a control sequence without being read as part of
    it: it starts with neither a digit nor a comma. *)
Definition inert_start (t : string) : bool :=
  match t with
  | EmptyString => true
  | String c _ => negb (is_digit c) && negb (Ascii.eqb c ",")
  end.

(** The text in front of the first control sequence of [s]. *)
Fixpoint text_until (s : string) : string :=
  match s with
  | EmptyString => EmptyString
  | String c s' =>
      match style_code s with
      | Some _ => EmptyString
      | None => String c (text_until s')
      end
  end.

(** The colours of a style are numbers of the palette. *)
Definition in_palette (st : style) : Prop :=
  (forall n, fg st = Some n -> n <= 15)
  /\ (forall n, bg st = Some n -> n <= 15).

(** Every character of [s] satisfies [P]. *)
Fixpoint forall_chars (P : ascii -> bool) (s : string) : bool :=
  match s with
  | EmptyString => true
  | String c s' => P c && forall_chars P s'
  end.

(** Every character a pattern can consume satisfies [P]. *)
Fixpoint chars_ok (P : ascii -> bool) (r : regex) : Prop :=
  match r with
  | Chr c => P c = true
  | Range lo hi => forall c, in_range lo hi c = true -> P c = true
  | Cat r1 r2 | Alt r1 r2 => chars_ok P r1 /\ chars_ok P r2
  | Rep r' _ _ | Group _ r' => chars_ok P r'
  end.

(** A lower bound on the length of a match. *)
Fixpoint min_len (r : regex) : nat :=
  match r with
  | Chr _ | Range _ _ => 1
  | Cat r1 r2 => min_len r1 + min_len r2
  | Alt r1 r2 => Nat.min (min_len r1) (min_len r2)
  | Rep r' lo _ => lo * min_len r'
  | Group _ r' => min_len r'
  end.

(** A character that [find_and_tag_urls] neither cuts a URL at nor strips
    from its end. *)
Definition url_solid (c : ascii) : bool :=
  negb (Ascii.eqb c " " || Ascii.eqb c apostrophe || Ascii.eqb c double_quote
        || Ascii.eqb c backtick || Ascii.eqb c Tk.newline
        || mem c ".,?!" || Ascii.eqb c ")").

(** Tag ranges in increasing order, each with at least one character,
    starting in [lo, stop), and each followed by at least one character that
    the next range does not cover. *)
Fixpoint chain (stop lo : nat) (l : list (string * nat * nat)) : Prop :=
  match l with
  | [] => True
  | (_, a, b) :: l' => lo <= a /\ a < stop /\ a < b /\ chain stop (S b) l'
  end.

(** The ranges of the tag [name] hold at least one character each and are
    apart: between two of them there is a character in neither. *)
Definition ranges_apart (name : string) (l : list (string * nat * nat))
  : Prop :=
  forall a b a' b',
    In (name, a, b) l -> In (name, a', b') l ->
    a < b /\ ((a = a' /\ b = b') \/ b < a' \/ b' < a).

(** The two tags of a colour number, background first. *)
Definition color_tags (n : nat) : list string :=
  [("background-" ++ format_d n)%string; ("foreground-" ++ format_d n)%string].

(** The tags that [config_tags] defines, lowest priority first, as they
    stand on a widget that had none of them. *)
Definition priority_order : list string :=
  ["url"; "underline"; "info"; "error"; "sent-privmsg"; "received-privmsg"]
  ++ flat_map color_tags (rev (seq 0 16))
  ++ ["pinged"; "other-nick"; "self-nick"; "channel"; "history-selection"].

(** What the body of the colour loop does to the priority order. *)
Definition color_names (names : list string) (item : nat * string)
  : option (list string) :=
  let (number, _) := item in
  let fg_tag := ("foreground-" ++ format_d number)%string in
  let bg_tag := ("background-" ++ format_d number)%string in
  let names := Tk.define bg_tag (Tk.define fg_tag names) in
  match Tk.raise fg_tag "sent-privmsg" names with
  | None => None
  | Some names =>
      match Tk.raise bg_tag "sent-privmsg" names with
      | None => None
      | Some names =>
          match Tk.raise fg_tag "received-privmsg" names with
          | None => None
          | Some names => Tk.raise bg_tag "received-privmsg" names
          end
      end
  end.

(** What [config_tags] does to the priority order. *)
Definition config_names (names : list string) : option (list string) :=
  let names :=
    fold_left (fun l n => Tk.define n l)
              ["url"; "underline"; "pinged"; "error"; "info";
               "history-selection"; "channel"; "self-nick"; "other-nick";
               "received-privmsg"; "sent-privmsg"] names in
  match for_each (fun l lower_tag => Tk.lower lower_tag "pinged" l)
                 ["info"; "error"; "sent-privmsg"; "received-privmsg"]
                 names with
  | None => None
  | Some names =>
      match for_each (fun l upper_tag => Tk.raise upper_tag "pinged" l)
                     ["history-selection"; "channel"; "self-nick";
                      "other-nick"] names with
      | None => None
      | Some names =>
          match for_each color_names _MIRC_COLORS names with
          | None => None
          | Some names =>
              Some (fold_left (fun l n => Tk.define n l)
                              ["url"; "url"; "url"; "other-nick";
                               "other-nick"; "other-nick"] names)
          end
      end
  end.

(** The options after [tag_configure(name, ...)] with the options [o]. *)
Definition set_opts (opts : list (string * Tk.options))
           (item : string * Tk.options) : list (string * Tk.options) :=
  (fst item,
   Tk.merge (snd item)
            (match Tk.lookup (fst item) opts with
             | Some o => o
             | None => Tk.no_options
             end)) :: opts.

(** What the body of the colour loop does to the options of the tags. *)
Definition color_opts (opts : list (string * Tk.options))
           (item : nat * string) : list (string * Tk.options) :=
  set_opts (set_opts opts
                     (("foreground-" ++ format_d (fst item))%string,
                      foreground (snd item)))
           (("background-" ++ format_d (fst item))%string,
            background (snd item)).

(** What [config_tags] does to the options of the tags. *)
Definition config_opts (opts : list (string * Tk.options))
  : list (string * Tk.options) :=
  fold_left color_opts _MIRC_COLORS
            (fold_left set_opts
                       [("url", underlined); ("underline", underlined);
                        ("pinged", foreground "#a1e37b");
                        ("error", foreground "#bd2f2f");
                        ("info", foreground "#FFE6C7");
                        ("history-selection", background "#5a5c50");
                        ("channel", foreground "#f7e452");
                        ("self-nick",
                         Tk.merge (foreground "#de8c28") underlined);
                        ("other-nick",
                         Tk.merge (foreground "#e7b678") underlined);
                        ("received-privmsg", foreground FOREGROUND);
                        ("sent-privmsg", foreground FOREGROUND)] opts).

(** A widget as Tk creates it: no text, and the one tag [sel]. *)
Definition new_widget : Tk.window (handler (string * string)) :=
  Tk.mkWindow (Tk.mkText EmptyString []) "#000000" "#ffffff" "xterm"
              ["sel"] [] [].

End Spec.

(* ================================================================== *)
(** ** Facts about the matcher and the splitting scan *)
(* ================================================================== *)

Module ReFacts.
Import PyStr Re.

Lemma consumed_refl (s : string) : consumed s s = EmptyString.
Proof.
  unfold consumed. rewrite Nat.sub_diag. destruct s; reflexivity.
Qed.

Lemma consumed_cons (c : ascii) (s rest : string) :
  String.length rest <= String.length s ->
  consumed (String c s) rest = String c (consumed s rest).
Proof.
  intros H. unfold consumed.
  replace (String.length (String c s) - String.length rest)
    with (S (String.length s - String.length rest))
    by (cbn [String.length]; lia).
  reflexivity.
Qed.

Lemma consumed_nonempty (s rest : string) (c : ascii) (m : string) :
  consumed s rest = String c m -> String.length rest < String.length s.
Proof.
  unfold consumed. intros H.
  destruct (String.length s - String.length rest) eqn:E; [|lia].
  destruct s; discriminate H.
Qed.

(** A successful match is an answer of the continuation. *)
Lemma rmatch_answer {A : Type} (r : regex) :
  forall (s : string) (caps : captures) (k : string -> captures -> option A)
         (x : A),
    rmatch r s caps k = Some x ->
    exists s1 caps1, k s1 caps1 = Some x.
Proof.
  induction r as [c|lo hi|r1 IH1 r2 IH2|r1 IH1 r2 IH2|r IH lo hi|i r IH];
    intros s caps k x H; cbn [rmatch] in H.
  - destruct s as [|c' s']; [discriminate|].
    destruct (Ascii.eqb c' c); [eauto|discriminate].
  - destruct s as [|c' s']; [discriminate|].
    destruct (in_range lo hi c'); [eauto|discriminate].
  - apply IH1 in H. destruct H as (s1 & caps1 & H). eapply IH2; eauto.
  - destruct (rmatch r1 s caps k) eqn:E.
    + inversion H; subst. eapply IH1; eauto.
    + eapply IH2; eauto.
  - revert lo s caps H.
    induction hi as [|hi IHhi]; intros lo s caps H.
    + destruct lo; [eauto|discriminate].
    + match type of H with
      | match ?m with _ => _ end = _ => destruct m eqn:E
      end.
      * inversion H; subst. apply IH in E.
        destruct E as (s1 & caps1 & E). eapply IHhi; eauto.
      * destruct lo; [eauto|discriminate].
  - apply IH in H. destruct H as (s1 & caps1 & H). eauto.
Qed.

Lemma re_match_consumed (r : regex) (s m rest : string) :
  re_match r s = Some (m, rest) -> m = consumed s rest.
Proof.
  unfold re_match. intros H. apply rmatch_answer in H.
  destruct H as (s1 & caps1 & H). congruence.
Qed.

Lemma re_match_shorter (r : regex) (s rest : string) (c : ascii) (m : string) :
  re_match r s = Some (String c m, rest) ->
  String.length rest < String.length s.
Proof.
  intros H. pose proof (re_match_consumed _ _ _ _ H) as E.
  symmetry in E. eapply consumed_nonempty; eauto.
Qed.

(** Above the length of the input the fuel of the scan does not matter. *)
Lemma split_loop_fuel (r : regex) :
  forall (f1 f2 : nat) (piece s : string),
    String.length s < f1 -> String.length s < f2 ->
    split_loop f1 r piece s = split_loop f2 r piece s.
Proof.
  induction f1 as [|f1 IH]; intros f2 piece s H1 H2; [lia|].
  destruct f2 as [|f2]; [lia|].
  cbn [split_loop].
  destruct (re_match r s) as [[m rest]|] eqn:E.
  - destruct m as [|c m].
    + destruct s as [|c s']; [reflexivity|].
      cbn [String.length] in *. apply IH; lia.
    + pose proof (re_match_shorter _ _ _ _ _ E).
      f_equal. f_equal. apply IH; lia.
  - destruct s as [|c s']; [reflexivity|].
    cbn [String.length] in *. apply IH; lia.
Qed.

(** The three equations of the scan. *)
Lemma split_from_nil (r : regex) (piece : string) :
  re_match r EmptyString = None ->
  split_from r piece EmptyString = [piece].
Proof.
  intros H. unfold split_from. cbn [split_loop String.length]. rewrite H.
  reflexivity.
Qed.

Lemma split_from_match (r : regex) (piece s rest : string) (c : ascii)
      (m : string) :
  re_match r s = Some (String c m, rest) ->
  split_from r piece s = piece :: String c m :: split_from r EmptyString rest.
Proof.
  intros H. unfold split_from.
  change (split_loop (S (String.length s)) r piece s)
    with (match re_match r s with
          | Some (String c m, rest) =>
              piece :: String c m
                :: split_loop (String.length s) r EmptyString rest
          | _ =>
              match s with
              | EmptyString => [piece]
              | String c s' =>
                  split_loop (String.length s) r
                             (piece ++ String c EmptyString)%string s'
              end
          end).
  rewrite H. pose proof (re_match_shorter _ _ _ _ _ H).
  f_equal. f_equal. apply split_loop_fuel; lia.
Qed.

Lemma split_from_char (r : regex) (piece : string) (c : ascii) (s : string) :
  re_match r (String c s) = None ->
  split_from r piece (String c s)
  = split_from r (piece ++ String c EmptyString)%string s.
Proof.
  intros H. unfold split_from.
  change (split_loop (S (String.length (String c s))) r piece (String c s))
    with (match re_match r (String c s) with
          | Some (String c0 m, rest) =>
              piece :: String c0 m
                :: split_loop (String.length (String c s)) r EmptyString rest
          | _ =>
              split_loop (String.length (String c s)) r
                         (piece ++ String c EmptyString)%string s
          end).
  rewrite H. apply split_loop_fuel; cbn [String.length]; lia.
Qed.

End ReFacts.

(* ================================================================== *)
(** ** Facts about the style pattern and its tokens *)
(* ================================================================== *)

Module TokenFacts.
Import PyStr Re TextwidgetTags Spec ReFacts.

Ltac consumed_tac :=
  repeat (rewrite consumed_cons by (cbn [String.length]; lia));
  rewrite ?consumed_refl.

(** Case analysis on the characters a pattern inspects. *)
Ltac scan_cases :=
  repeat match goal with
  | H : is_digit ?d = _ |- context [is_digit ?d] => rewrite H
  | H : Ascii.eqb ?c "," = _ |- context [Ascii.eqb ?c ","] => rewrite H
  | |- context [match ?s with EmptyString => _ | String _ _ => _ end] =>
      is_var s; destruct s
  | |- context [in_range "0" "9" ?d] =>
      is_var d; change (in_range "0" "9" d) with (is_digit d);
      destruct (is_digit d) eqn:?
  | |- context [is_digit ?d] => is_var d; destruct (is_digit d) eqn:?
  | |- context [Ascii.eqb ?c ","] =>
      is_var c; destruct (Ascii.eqb c ",") eqn:?
  end.

(** At the start of a string the style pattern matches exactly the control
    sequence the string starts with. *)
Lemma re_match_style (s : string) : re_match style_regex s = style_code s.
Proof.
  unfold re_match, style_regex, Opt, digit. cbn [rmatch Nat.pred].
  destruct s as [|c s]; [reflexivity|].
  unfold style_code.
  destruct (Ascii.eqb c x02) eqn:E2.
  { apply Ascii.eqb_eq in E2; subst. cbn [orb]. consumed_tac. reflexivity. }
  destruct (Ascii.eqb c x1f) eqn:E1f.
  { apply Ascii.eqb_eq in E1f; subst. cbn [orb]. consumed_tac. reflexivity. }
  destruct (Ascii.eqb c x03) eqn:E3.
  2:{ cbn [orb]. destruct (Ascii.eqb c x0f); consumed_tac; reflexivity. }
  apply Ascii.eqb_eq in E3; subst c.
  change (Ascii.eqb x03 x0f) with false. cbn [orb].
  unfold comma_digits12, digits12.
  scan_cases; consumed_tac; reflexivity.
Qed.

Lemma digits12_split (s ds rest : string) :
  digits12 s = Some (ds, rest) ->
  s = (ds ++ rest)%string /\ 1 <= String.length ds <= 2.
Proof.
  unfold digits12. intros H.
  destruct s as [|d1 [|d2 s]]; try discriminate;
    destruct (is_digit d1); try discriminate;
    try destruct (is_digit d2);
    inversion H; subst; cbn; split; try reflexivity; lia.
Qed.

Lemma comma_digits12_split (s ds rest : string) :
  comma_digits12 s = Some (ds, rest) -> s = (ds ++ rest)%string.
Proof.
  unfold comma_digits12. intros H.
  destruct s as [|c s]; [discriminate|].
  destruct (Ascii.eqb c ","); [|discriminate].
  destruct (digits12 s) as [[ds' r]|] eqn:E; [|discriminate].
  inversion H; subst. apply digits12_split in E. destruct E as [-> _].
  reflexivity.
Qed.

Lemma append_assoc (a b c : string) :
  ((a ++ b) ++ c = a ++ (b ++ c))%string.
Proof. induction a as [|x a IH]; cbn; [reflexivity|now rewrite IH]. Qed.

Lemma append_nil_r (a : string) : (a ++ EmptyString = a)%string.
Proof. induction a as [|x a IH]; cbn; [reflexivity|now rewrite IH]. Qed.

Lemma length_append (a b : string) :
  String.length (a ++ b) = String.length a + String.length b.
Proof. induction a as [|x a IH]; cbn; [reflexivity|now rewrite IH]. Qed.

(** A control sequence is a non-empty prefix of the string it is read
    from. *)
Lemma style_code_split (s m rest : string) :
  style_code s = Some (m, rest) ->
  s = (m ++ rest)%string /\ exists c m', m = String c m'.
Proof.
  unfold style_code. intros H.
  destruct s as [|c s]; [discriminate|].
  destruct (Ascii.eqb c x02 || Ascii.eqb c x1f || Ascii.eqb c x0f).
  { inversion H; subst. split; [reflexivity|eauto]. }
  destruct (Ascii.eqb c x03) eqn:E; [|discriminate].
  apply Ascii.eqb_eq in E; subst c.
  destruct (digits12 s) as [[fgd s2]|] eqn:D; [|discriminate].
  apply digits12_split in D. destruct D as [-> _].
  destruct (comma_digits12 s2) as [[bgp s3]|] eqn:C.
  - apply comma_digits12_split in C. subst s2.
    inversion H; subst. cbn. rewrite append_assoc. split; [reflexivity|eauto].
  - inversion H; subst. split; [reflexivity|eauto].
Qed.

Lemma style_code_shorter (s m rest : string) :
  style_code s = Some (m, rest) -> String.length rest < String.length s.
Proof.
  intros H. apply style_code_split in H.
  destruct H as [-> (c & m' & ->)]. cbn [append String.length].
  rewrite length_append. lia.
Qed.

(** Induction along the scan: over the characters that start no control
    sequence, and over whole control sequences. *)
Lemma token_ind (P : string -> Prop) :
  P EmptyString ->
  (forall c s, style_code (String c s) = None -> P s -> P (String c s)) ->
  (forall s m rest, style_code s = Some (m, rest) -> P rest -> P s) ->
  forall s, P s.
Proof.
  intros Hnil Hchar Hcode s.
  remember (String.length s) as n eqn:Hn.
  revert s Hn. induction n as [n IH] using lt_wf_ind. intros s Hn.
  destruct (style_code s) as [[m rest]|] eqn:E.
  - apply (Hcode s m rest E).
    apply (IH (String.length rest)); [|reflexivity].
    subst n. eapply style_code_shorter; eauto.
  - destruct s as [|c s]; [exact Hnil|].
    apply Hchar; [exact E|].
    apply (IH (String.length s)); [|reflexivity].
    subst n. cbn. lia.
Qed.

End TokenFacts.

Module ParseFacts.
Import PyStr Re TextwidgetTags Spec ReFacts TokenFacts.

Lemma palette_palette16 (n : nat) : palette n = palette16 n.
Proof.
  unfold palette, palette16, dict_in, _MIRC_COLORS.
  do 16 (destruct n as [|n]; [reflexivity|]).
  reflexivity.
Qed.

Lemma startswith_x03 (s : string) :
  startswith (String x03 s) (String x03 EmptyString) = true.
Proof. destruct s; reflexivity. Qed.

Lemma comma_not_digit : in_range "0" "9" "," = false.
Proof. reflexivity. Qed.

Lemma digit_not_comma (d : ascii) :
  is_digit d = true -> Ascii.eqb d "," = false.
Proof.
  intros H. destruct (Ascii.eqb d ",") eqn:E; [|reflexivity].
  apply Ascii.eqb_eq in E. subst d. discriminate H.
Qed.

Lemma is_digits12_cases (ds : string) :
  is_digits12 ds = true ->
  (exists d, ds = String d EmptyString /\ is_digit d = true)
  \/ (exists d1 d2, ds = String d1 (String d2 EmptyString)
                    /\ is_digit d1 = true /\ is_digit d2 = true).
Proof.
  destruct ds as [|d1 [|d2 [|d3 ds]]]; cbn; try discriminate.
  - eauto.
  - intros H. apply andb_prop in H. destruct H. right. eauto 6.
Qed.

Ltac use_digits :=
  repeat first
    [ match goal with
      | H : is_digit ?d = _ |- context [in_range "0" "9" ?d] =>
          change (in_range "0" "9" d) with (is_digit d); rewrite H
      | H : is_digit ?d = _ |- context [is_digit ?d] => rewrite H
      | H : is_digit ?d = true |- context [Ascii.eqb ?d ","] =>
          rewrite (digit_not_comma d H)
      end
    | rewrite comma_not_digit
    | progress change (is_digit ",") with false
    | progress consumed_tac
    | progress cbn -[is_digit in_range palette palette16 Nat.mul Nat.add
                     digit_value consumed rmatch startswith] ].

Ltac run_spec :=
  unfold apply_spec, fullmatch, color_regex, Opt, digit;
  rewrite ?startswith_x03; cbn [rmatch Nat.pred];
  use_digits; unfold int, number; use_digits;
  rewrite ?palette_palette16.

(** The colour branch of the loop body on a foreground-only sequence. *)
Lemma apply_spec_fg (st : style) (fgd : string) :
  is_digits12 fgd = true ->
  apply_spec st (String x03 fgd) = inr (effect st (Color (number fgd) None)).
Proof.
  intros H. apply is_digits12_cases in H.
  destruct H as [(d & -> & D)|(d1 & d2 & -> & D1 & D2)]; run_spec;
  reflexivity.
Qed.

(** The colour branch on a sequence with a background part. *)
Lemma apply_spec_fg_bg (st : style) (fgd bgd : string) :
  is_digits12 fgd = true ->
  is_digits12 bgd = true ->
  apply_spec st (String x03 (fgd ++ String "," bgd))
  = inr (effect st (Color (number fgd) (Some (number bgd)))).
Proof.
  intros H H'. apply is_digits12_cases in H. apply is_digits12_cases in H'.
  destruct H as [(d & -> & D)|(d1 & d2 & -> & D1 & D2)];
  destruct H' as [(b & -> & B)|(b1 & b2 & -> & B1 & B2)]; run_spec;
  reflexivity.
Qed.

(** The loop body does on a control sequence what the sequence means. *)
Lemma apply_spec_sequence (st : style) (m : string) (c : code) :
  control_sequence m c -> apply_spec st m = inr (effect st c).
Proof.
  intros H. destruct H.
  - reflexivity.
  - reflexivity.
  - reflexivity.
  - now apply apply_spec_fg.
  - now apply apply_spec_fg_bg.
Qed.

Lemma decode_sequence (m : string) (c : code) :
  control_sequence m c -> decode m = Some c.
Proof.
  intros H. destruct H; try reflexivity.
  - apply is_digits12_cases in H.
    destruct H as [(d & -> & D)|(d1 & d2 & -> & D1 & D2)];
      unfold decode, digits12; cbn [Ascii.eqb Bool.eqb x03];
      use_digits; reflexivity.
  - apply is_digits12_cases in H. apply is_digits12_cases in H0.
    destruct H as [(d & -> & D)|(d1 & d2 & -> & D1 & D2)];
    destruct H0 as [(b & -> & B)|(b1 & b2 & -> & B1 & B2)];
      unfold decode, comma_digits12, digits12;
      cbn [Ascii.eqb Bool.eqb x03 append];
      use_digits; reflexivity.
Qed.

(** What the scan reads as a control sequence is one. *)
Lemma style_code_sequence (s m rest : string) :
  style_code s = Some (m, rest) -> exists c, control_sequence m c.
Proof.
  unfold style_code. intros H.
  destruct s as [|c s]; [discriminate|].
  destruct (Ascii.eqb c x02) eqn:E2.
  { apply Ascii.eqb_eq in E2; subst. inversion H; subst.
    exists Bold. constructor. }
  destruct (Ascii.eqb c x1f) eqn:E1f.
  { apply Ascii.eqb_eq in E1f; subst. inversion H; subst.
    exists Underline. constructor. }
  destruct (Ascii.eqb c x0f) eqn:E0f.
  { apply Ascii.eqb_eq in E0f; subst. inversion H; subst.
    exists Reset. constructor. }
  cbn [orb] in H.
  destruct (Ascii.eqb c x03) eqn:E3; [|discriminate].
  apply Ascii.eqb_eq in E3; subst c. clear E2 E1f E0f.
  unfold comma_digits12, digits12 in H.
  repeat match type of H with
  | context [match ?s with EmptyString => _ | String _ _ => _ end] =>
      is_var s; destruct s
  | context [is_digit ?d] => is_var d; destruct (is_digit d) eqn:?
  | context [Ascii.eqb ?c ","] =>
      is_var c; destruct (Ascii.eqb c ",") eqn:?E;
      [apply Ascii.eqb_eq in E; subst c|]
  end; try discriminate H; inversion H; subst; clear H.
  all: eexists;
    first [ apply cs_fg; cbn; use_digits; reflexivity
          | match goal with
            | |- control_sequence (String _ (String ?a (String "," ?b))) _ =>
                apply (cs_fg_bg (String a EmptyString) b)
            | |- control_sequence
                   (String _ (String ?a (String ?a' (String "," ?b)))) _ =>
                apply (cs_fg_bg (String a (String a' EmptyString)) b)
            end; cbn; use_digits; reflexivity ].
Qed.

(** *** The pairs the loop runs over *)

Lemma split_style_nil (piece : string) :
  split_from style_regex piece EmptyString = [piece].
Proof. apply split_from_nil. reflexivity. Qed.

Lemma split_style_char (piece : string) (c : ascii) (s : string) :
  style_code (String c s) = None ->
  split_from style_regex piece (String c s)
  = split_from style_regex (piece ++ String c EmptyString)%string s.
Proof. intros H. apply split_from_char. now rewrite re_match_style. Qed.

Lemma split_style_code (piece s m rest : string) :
  style_code s = Some (m, rest) ->
  split_from style_regex piece s
  = piece :: m :: split_from style_regex EmptyString rest.
Proof.
  intros H. destruct (style_code_split _ _ _ H) as [_ (c & m' & ->)].
  apply split_from_match. now rewrite re_match_style.
Qed.

Lemma zip_parts_cons2 (spec piece : string) (l : list string) :
  zip_parts (spec :: piece :: l) = (spec, piece) :: zip_parts l.
Proof. destruct l; reflexivity. Qed.

Lemma pairs_from_nil (spec piece : string) :
  pairs_from spec piece EmptyString = [(spec, piece)].
Proof. unfold pairs_from. rewrite split_style_nil. reflexivity. Qed.

Lemma pairs_from_char (spec piece : string) (c : ascii) (s : string) :
  style_code (String c s) = None ->
  pairs_from spec piece (String c s)
  = pairs_from spec (piece ++ String c EmptyString)%string s.
Proof. intros H. unfold pairs_from. now rewrite split_style_char. Qed.

Lemma pairs_from_code (spec piece s m rest : string) :
  style_code s = Some (m, rest) ->
  pairs_from spec piece s = (spec, piece) :: pairs_from m EmptyString rest.
Proof.
  intros H. unfold pairs_from. rewrite (split_style_code _ _ _ _ H).
  apply zip_parts_cons2.
Qed.

(** [re.split] with one group returns an odd number of parts. *)
Lemma split_length_odd (s : string) :
  forall piece,
    exists k, List.length (split_from style_regex piece s) = 2 * k + 1.
Proof.
  induction s as [|c s Hc IH|s m rest Hm IH] using token_ind; intros piece.
  - exists 0. now rewrite split_style_nil.
  - rewrite (split_style_char _ _ _ Hc). apply IH.
  - rewrite (split_style_code _ _ _ _ Hm).
    destruct (IH EmptyString) as [k Hk]. exists (S k).
    cbn [List.length]. rewrite Hk. lia.
Qed.

Lemma parts_even (text : string) :
  Nat.modulo (List.length (parts_of text)) 2 = 0.
Proof.
  unfold parts_of, split_captured.
  destruct (split_length_odd text EmptyString) as [k Hk].
  cbn [List.length]. rewrite Hk.
  replace (S (2 * k + 1)) with ((k + 1) * 2) by lia.
  apply Nat.Div0.mod_mul.
Qed.

Lemma parse_text_pairs (text : string) :
  parse_text text = loop initial (pairs_from EmptyString EmptyString text).
Proof.
  unfold parse_text. rewrite parts_even. reflexivity.
Qed.

Lemma pairs_from_ok (s : string) :
  forall spec piece,
    spec_ok spec ->
    Forall (fun p => spec_ok (fst p)) (pairs_from spec piece s).
Proof.
  induction s as [|c s Hc IH|s m rest Hm IH] using token_ind;
    intros spec piece Hok.
  - rewrite pairs_from_nil. constructor; [exact Hok|constructor].
  - rewrite (pairs_from_char _ _ _ _ Hc). now apply IH.
  - rewrite (pairs_from_code _ _ _ _ _ Hm). constructor; [exact Hok|].
    apply IH. right. eapply style_code_sequence; eauto.
Qed.

(** *** The loop *)

Lemma apply_spec_ok (st : style) (spec : string) :
  spec_ok spec -> apply_spec st spec = inr (style_after st [spec]).
Proof.
  intros [->|[c Hc]]; [reflexivity|].
  rewrite (apply_spec_sequence st _ _ Hc).
  cbn [style_after fold_left]. now rewrite (decode_sequence _ _ Hc).
Qed.

(** On the pairs of a split the loop never raises and yields the runs of
    the left-to-right pass. *)
Lemma loop_scan (pairs : list (string * string)) :
  Forall (fun p => spec_ok (fst p)) pairs ->
  forall st, loop st pairs = (scan st pairs, None).
Proof.
  induction 1 as [|[spec sub] pairs Hok _ IH]; intros st; [reflexivity|].
  cbn [loop scan fst] in *. rewrite (apply_spec_ok _ _ Hok).
  now rewrite IH.
Qed.

Lemma spec_ok_empty : spec_ok EmptyString.
Proof. now left. Qed.

Lemma parse_text_scan (text : string) :
  parse_text text
  = (scan initial (pairs_from EmptyString EmptyString text), None).
Proof.
  rewrite parse_text_pairs. apply loop_scan.
  apply pairs_from_ok, spec_ok_empty.
Qed.

(** *** The left-to-right pass *)

Lemma style_after_app (st : style) (l1 l2 : list string) :
  style_after st (l1 ++ l2) = style_after (style_after st l1) l2.
Proof. apply fold_left_app. Qed.

Lemma scan_app (l1 l2 : list (string * string)) :
  forall st,
    scan st (l1 ++ l2)
    = scan st l1 ++ scan (style_after st (map fst l1)) l2.
Proof.
  induction l1 as [|[spec sub] l1 IH]; intros st; [reflexivity|].
  cbn [app scan map fst]. rewrite IH, <- app_assoc. reflexivity.
Qed.

Lemma flat_map_map {A B C : Type} (f : B -> list C) (g : A -> B)
      (l : list A) :
  flat_map f (map g l) = flat_map (fun x => f (g x)) l.
Proof. induction l as [|x l IH]; cbn; [reflexivity|now rewrite IH]. Qed.

Lemma scan_indexed (pairs : list (string * string)) :
  forall st,
    scan st pairs
    = flat_map (fun i =>
                  emit (style_after st (map fst (firstn (S i) pairs)))
                       (snd (nth i pairs (EmptyString, EmptyString))))
               (seq 0 (List.length pairs)).
Proof.
  induction pairs as [|[spec sub] pairs IH]; intros st; [reflexivity|].
  cbn [scan List.length seq flat_map]. f_equal.
  rewrite IH, <- seq_shift, flat_map_map. reflexivity.
Qed.

Lemma scan_runs_of (pairs : list (string * string)) :
  scan initial pairs = runs_of pairs.
Proof.
  rewrite scan_indexed. unfold runs_of. apply flat_map_ext. intros i.
  unfold text_at, style_at.
  now destruct (snd (nth i pairs (EmptyString, EmptyString))).
Qed.

(** *** Plain text and concatenation *)

Lemma digits12_none (t : string) :
  starts_digit t = false -> digits12 t = None.
Proof.
  destruct t as [|c t]; [reflexivity|]. cbn. now intros ->.
Qed.

Lemma plain_cons (c : ascii) (t : string) :
  plain (String c t) = true ->
  style_code (String c t) = None /\ plain t = true.
Proof.
  cbn [plain]. intros H.
  repeat (apply andb_prop in H; destruct H as [H ?]).
  split; [|assumption]. unfold style_code.
  repeat match goal with
         | H : negb _ = true |- _ => apply negb_true_iff in H
         end.
  repeat match goal with
         | H : Ascii.eqb c _ = false |- _ => rewrite H
         end.
  cbn [orb]. destruct (Ascii.eqb c x03); [|reflexivity].
  cbn [andb] in *.
  match goal with
  | H : starts_digit t = false |- _ => now rewrite (digits12_none _ H)
  end.
Qed.

Lemma pairs_from_plain (t : string) :
  forall spec piece,
    plain t = true ->
    pairs_from spec piece t = [(spec, (piece ++ t)%string)].
Proof.
  induction t as [|c t IH]; intros spec piece H.
  - now rewrite pairs_from_nil, append_nil_r.
  - apply plain_cons in H. destruct H as [Hc Ht].
    rewrite (pairs_from_char _ _ _ _ Hc), (IH _ _ Ht), append_assoc.
    reflexivity.
Qed.

Lemma inert_start_cons (c : ascii) (t : string) :
  inert_start (String c t) = true ->
  is_digit c = false /\ Ascii.eqb c "," = false.
Proof.
  cbn [inert_start]. intros H. apply andb_prop in H. destruct H as [H1 H2].
  split; [now destruct (is_digit c)|now destruct (Ascii.eqb c ",")].
Qed.

(** Appending text that starts with neither a digit nor a comma does not
    change the control sequence a non-empty string starts with. *)
Lemma style_code_app (s t : string) :
  s <> EmptyString ->
  inert_start t = true ->
  style_code (s ++ t)
  = match style_code s with
    | Some (m, rest) => Some (m, (rest ++ t)%string)
    | None => None
    end.
Proof.
  intros Hs Ht. destruct s as [|c s]; [contradiction|]. clear Hs.
  destruct t as [|c0 t].
  { rewrite append_nil_r. destruct (style_code (String c s)) as [[m rest]|];
      [now rewrite append_nil_r|reflexivity]. }
  apply inert_start_cons in Ht. destruct Ht as [Hd Hc].
  cbn [append]. unfold style_code.
  destruct (Ascii.eqb c x02 || Ascii.eqb c x1f || Ascii.eqb c x0f);
    [reflexivity|].
  destruct (Ascii.eqb c x03); [|reflexivity].
  unfold comma_digits12, digits12.
  repeat first
    [ match goal with
      | H : is_digit ?d = _ |- context [is_digit ?d] => rewrite H
      | H : Ascii.eqb ?d "," = _ |- context [Ascii.eqb ?d ","] => rewrite H
      | |- context [match (?s ++ _)%string with
                    | EmptyString => _
                    | String _ _ => _
                    end] => is_var s; destruct s
      | |- context [match ?s with EmptyString => _ | String _ _ => _ end] =>
          is_var s; destruct s
      | |- context [is_digit ?d] => is_var d; destruct (is_digit d) eqn:?
      | |- context [Ascii.eqb ?c ","] =>
          is_var c; destruct (Ascii.eqb c ",") eqn:?
      end
    | progress cbn [append] ];
    reflexivity.
Qed.

Lemma style_code_inert (t m rest : string) :
  style_code t = Some (m, rest) -> inert_start t = true.
Proof.
  unfold style_code. destruct t as [|c t]; [discriminate|].
  destruct (Ascii.eqb c x02) eqn:E2;
    [apply Ascii.eqb_eq in E2; subst; reflexivity|].
  destruct (Ascii.eqb c x1f) eqn:E1f;
    [apply Ascii.eqb_eq in E1f; subst; reflexivity|].
  destruct (Ascii.eqb c x0f) eqn:E0f;
    [apply Ascii.eqb_eq in E0f; subst; reflexivity|].
  destruct (Ascii.eqb c x03) eqn:E3;
    [apply Ascii.eqb_eq in E3; subst; reflexivity|].
  discriminate.
Qed.

(** The pairs of a text that continues with a control sequence. *)
Lemma pairs_from_app (pre t m rest : string) :
  style_code t = Some (m, rest) ->
  forall spec piece,
    pairs_from spec piece (pre ++ t)
    = pairs_from spec piece pre ++ pairs_from m EmptyString rest.
Proof.
  intros Ht. pose proof (style_code_inert _ _ _ Ht) as Hi.
  induction pre as [|c s Hc IH|s m' rest' Hm IH] using token_ind;
    intros spec piece.
  - cbn [append]. now rewrite pairs_from_nil, (pairs_from_code _ _ _ _ _ Ht).
  - assert (E : style_code (String c s ++ t) = None).
    { rewrite style_code_app by (congruence || exact Hi). now rewrite Hc. }
    cbn [append] in *.
    now rewrite (pairs_from_char _ _ _ _ E), (pairs_from_char _ _ _ _ Hc), IH.
  - assert (E : style_code (s ++ t) = Some (m', (rest' ++ t)%string)).
    { rewrite style_code_app; [now rewrite Hm| |exact Hi].
      intros ->. discriminate Hm. }
    now rewrite (pairs_from_code _ _ _ _ _ E), (pairs_from_code _ _ _ _ _ Hm), IH.
Qed.

(** *** Joining the pieces *)

Lemma join_app (l1 l2 : list string) :
  join (l1 ++ l2) = (join l1 ++ join l2)%string.
Proof.
  unfold join.
  induction l1 as [|x l1 IH]; cbn [app fold_right]; [reflexivity|].
  now rewrite IH, append_assoc.
Qed.

Lemma join_emit (st : style) (sub : string) :
  join (map fst (emit st sub)) = sub.
Proof. destruct sub; cbn; [reflexivity|now rewrite append_nil_r]. Qed.

Lemma join_scan (pairs : list (string * string)) :
  forall st, join (map fst (scan st pairs)) = join (map snd pairs).
Proof.
  induction pairs as [|[spec sub] pairs IH]; intros st; [reflexivity|].
  cbn [scan map snd]. rewrite map_app, join_app, join_emit, IH.
  reflexivity.
Qed.

Lemma scan_nonempty (pairs : list (string * string)) :
  forall st, Forall (fun r : run => fst r <> EmptyString) (scan st pairs).
Proof.
  induction pairs as [|[spec sub] pairs IH]; intros st; [constructor|].
  cbn [scan]. apply Forall_app. split; [|apply IH].
  destruct sub; cbn; constructor; [discriminate|constructor].
Qed.

Lemma strip_from_skip (a b : string) :
  strip_from (String.length a) (a ++ b) = strip_from 0 b.
Proof. induction a as [|c a IH]; [reflexivity|exact IH]. Qed.

Lemma strip_codes_char (c : ascii) (s : string) :
  style_code (String c s) = None ->
  strip_codes (String c s) = String c (strip_codes s).
Proof.
  intros H. unfold strip_codes. cbn [strip_from]. now rewrite H.
Qed.

Lemma strip_codes_code (s m rest : string) :
  style_code s = Some (m, rest) -> strip_codes s = strip_codes rest.
Proof.
  intros H. destruct (style_code_split _ _ _ H) as [E (c & m' & ->)].
  unfold strip_codes. subst s. cbn [append strip_from].
  cbn [append] in H. rewrite H. cbn [String.length Nat.pred].
  apply strip_from_skip.
Qed.

Lemma join_pairs_from (s : string) :
  forall spec piece,
    join (map snd (pairs_from spec piece s))
    = (piece ++ strip_codes s)%string.
Proof.
  induction s as [|c s Hc IH|s m rest Hm IH] using token_ind;
    intros spec piece.
  - rewrite pairs_from_nil. cbn. reflexivity.
  - rewrite (pairs_from_char _ _ _ _ Hc), IH, (strip_codes_char _ _ Hc).
    now rewrite append_assoc.
  - rewrite (pairs_from_code _ _ _ _ _ Hm), (strip_codes_code _ _ _ Hm).
    cbn [map snd join fold_right]. f_equal. apply IH.
Qed.

Lemma join_split_from (s : string) :
  forall piece, join (split_from style_regex piece s) = (piece ++ s)%string.
Proof.
  induction s as [|c s Hc IH|s m rest Hm IH] using token_ind; intros piece.
  - rewrite split_style_nil. cbn. reflexivity.
  - rewrite (split_style_char _ _ _ Hc), IH. now rewrite append_assoc.
  - rewrite (split_style_code _ _ _ _ Hm).
    destruct (style_code_split _ _ _ Hm) as [E _].
    cbn [join fold_right]. change (fold_right append EmptyString) with join.
    rewrite IH. cbn [append]. now rewrite <- E.
Qed.

End ParseFacts.

(* ================================================================== *)
(** ** Properties of [parse_text] *)
(* ================================================================== *)

Module ParseText.
Import PyStr Re TextwidgetTags Spec ReFacts TokenFacts ParseFacts.

(** C1.  The scenario of the specification: parsing
    ["Hello \x034there\x0f!"] yields the three runs ["Hello "] without tags,
    ["there"] tagged [foreground-4] and ["!"] without tags, in that order,
    and ends without an exception. *)
Theorem parse_text_hello_there :
  parse_text ("Hello " ++ String x03 "4there" ++ String x0f "!")%string
  = ([("Hello ", []); ("there", ["foreground-4"]); ("!", [])], None).
Proof. vm_compute. reflexivity. Qed.

Lemma sequence_cases (m : string) (c : code) :
  control_sequence m c ->
  m = String x02 EmptyString \/ m = String x1f EmptyString
  \/ m = String x0f EmptyString \/ exists m', m = String x03 m'.
Proof. intros H. destruct H; eauto 6. Qed.

Lemma sequence_fullmatch (m : string) (c : code) :
  control_sequence m c ->
  startswith m (String x03 EmptyString) = true ->
  fullmatch color_regex m <> None.
Proof.
  intros H Hs E. pose proof (apply_spec_sequence initial _ _ H) as A.
  destruct H; try discriminate Hs.
  - apply is_digits12_cases in H.
    destruct H as [(d & -> & D)|(d1 & d2 & -> & D1 & D2)];
      unfold apply_spec in A; rewrite startswith_x03, E in A;
      cbn in A; discriminate A.
  - apply is_digits12_cases in H.
    destruct H as [(d & -> & D)|(d1 & d2 & -> & D1 & D2)];
      unfold apply_spec in A; rewrite startswith_x03, E in A;
      cbn in A; discriminate A.
Qed.

(** C6.  [parse_text] never raises: the number of parts is even, every
    first component of a pair is the empty string or one of the four kinds
    of control sequence (so the final [else] is not reached), the colour
    pattern matches every component that starts with [\x03], the loop body
    ends normally on every pair from any style, and the generator ends
    without an exception. *)
Theorem parse_text_never_raises (text : string) :
  Nat.modulo (List.length (parts_of text)) 2 = 0
  /\ (forall style_spec substring,
        In (style_spec, substring) (zip_parts (parts_of text)) ->
        (style_spec = EmptyString
         \/ style_spec = String x02 EmptyString
         \/ style_spec = String x1f EmptyString
         \/ startswith style_spec (String x03 EmptyString) = true
         \/ style_spec = String x0f EmptyString)
        /\ (startswith style_spec (String x03 EmptyString) = true ->
            fullmatch color_regex style_spec <> None)
        /\ (forall st, exists st', apply_spec st style_spec = inr st'))
  /\ exists runs, parse_text text = (runs, None).
Proof.
  split; [apply parts_even|]. split.
  - intros spec sub Hin.
    pose proof (pairs_from_ok text EmptyString EmptyString spec_ok_empty)
      as Hall.
    rewrite Forall_forall in Hall. specialize (Hall _ Hin). cbn [fst] in Hall.
    split; [|split].
    + destruct Hall as [->|[c Hc]]; [now left|].
      destruct (sequence_cases _ _ Hc) as [->|[->|[->|[m' ->]]]]; auto.
      right. right. right. left. apply startswith_x03.
    + destruct Hall as [->|[c Hc]]; [discriminate|].
      now apply (sequence_fullmatch _ c).
    + intros st. rewrite (apply_spec_ok _ _ Hall). eauto.
  - rewrite parse_text_scan. eauto.
Qed.

Lemma parse_text_never_raises_witness :
  fullmatch color_regex (String x03 "4,12") <> None.
Proof.
  apply (proj1 (proj2 (proj1 (proj2 (parse_text_never_raises
                                       ("a" ++ String x03 "4,12b")))
                             (String x03 "4,12") "b"
                             (or_intror (or_introl eq_refl))))).
  reflexivity.
Defined.

(** C9.  The texts of the runs, joined, are the input with every control
    sequence removed; no run has an empty text; and the parts the input is
    split into, joined, are the input itself. *)
Theorem parse_text_keeps_visible_text (text : string) :
  join (map fst (fst (parse_text text))) = strip_codes text
  /\ Forall (fun r : run => fst r <> EmptyString) (fst (parse_text text))
  /\ join (parts_of text) = text.
Proof.
  rewrite parse_text_scan. cbn [fst]. split; [|split].
  - rewrite join_scan, join_pairs_from. reflexivity.
  - apply scan_nonempty.
  - unfold parts_of, split_captured. cbn [join fold_right].
    change (fold_right append EmptyString) with join.
    now rewrite join_split_from.
Qed.

(** *** Reading one colour sequence *)

Lemma comma_digits12_none (t : string) :
  starts_comma_digit t = false -> comma_digits12 t = None.
Proof.
  destruct t as [|c t]; [reflexivity|]. cbn [starts_comma_digit comma_digits12].
  destruct (Ascii.eqb c ","); [|reflexivity].
  cbn [andb]. intros H. now rewrite (digits12_none _ H).
Qed.

Lemma digits12_exact (ds t : string) :
  is_digits12 ds = true ->
  ends_digits ds t = true ->
  digits12 (ds ++ t) = Some (ds, t).
Proof.
  intros H He. apply is_digits12_cases in H.
  destruct H as [(d & -> & D)|(d1 & d2 & -> & D1 & D2)];
    cbn [append digits12]; use_digits; try reflexivity.
  unfold ends_digits in He. cbn in He.
  destruct t as [|c t]; [reflexivity|].
  cbn in He. apply negb_true_iff in He. now rewrite He.
Qed.

Lemma x03_not_other :
  (Ascii.eqb x03 x02 || Ascii.eqb x03 x1f || Ascii.eqb x03 x0f) = false.
Proof. reflexivity. Qed.

(** [\x03<fg>] followed by [t] is read as [\x03<fg>] when [t] continues
    neither the digits nor the sequence. *)
Lemma style_code_fg (ds t : string) :
  is_digits12 ds = true ->
  ends_digits ds t = true ->
  starts_comma_digit t = false ->
  style_code (String x03 ds ++ t) = Some (String x03 ds, t).
Proof.
  intros H He Hc. cbn [append]. unfold style_code.
  rewrite x03_not_other, Ascii.eqb_refl, (digits12_exact _ _ H He).
  now rewrite (comma_digits12_none _ Hc).
Qed.

(** [\x03<fg>,<bg>] followed by [t] is read as such when [t] does not
    continue the digits. *)
Lemma style_code_fg_bg (fgd bgd t : string) :
  is_digits12 fgd = true ->
  is_digits12 bgd = true ->
  ends_digits bgd t = true ->
  style_code (String x03 (fgd ++ String "," bgd) ++ t)
  = Some (String x03 (fgd ++ String "," bgd), t).
Proof.
  intros H H' He. cbn [append]. unfold style_code.
  rewrite x03_not_other, Ascii.eqb_refl, append_assoc.
  rewrite digits12_exact; [|exact H|].
  2:{ unfold ends_digits. cbn [append starts_digit].
      change (is_digit ",") with false. now rewrite andb_false_r. }
  cbn [append comma_digits12]. rewrite Ascii.eqb_refl.
  now rewrite (digits12_exact _ _ H' He).
Qed.

(** The pairs of a text made of one control sequence and plain text. *)
Lemma pairs_code_plain (m t : string) :
  style_code (m ++ t) = Some (m, t) ->
  plain t = true ->
  pairs_from EmptyString EmptyString (m ++ t)
  = [(EmptyString, EmptyString); (m, t)].
Proof.
  intros Hm Ht.
  now rewrite (pairs_from_code _ _ _ _ _ Hm), (pairs_from_plain _ _ _ Ht).
Qed.

Lemma style_after_sequence (st : style) (m : string) (c : code) :
  control_sequence m c -> style_after st [m] = effect st c.
Proof.
  intros H. cbn [style_after fold_left]. now rewrite (decode_sequence _ _ H).
Qed.

Lemma emit_nonempty (st : style) (t : string) :
  t <> EmptyString -> emit st t = [(t, tags_of st)].
Proof. destruct t; [contradiction|reflexivity]. Qed.

Lemma parse_code_plain (m t : string) (c : code) :
  control_sequence m c ->
  style_code (m ++ t) = Some (m, t) ->
  plain t = true ->
  t <> EmptyString ->
  parse_text (m ++ t) = ([(t, tags_of (effect initial c))], None).
Proof.
  intros Hc Hm Ht Hne.
  rewrite parse_text_scan, (pairs_code_plain _ _ Hm Ht).
  cbn [scan]. rewrite (style_after_sequence _ _ _ Hc).
  cbn [emit truthy app style_after fold_left decode].
  now rewrite (emit_nonempty _ _ Hne).
Qed.

(** C2.  For every colour number [n] from 0 to 15, written with one or two
    digits [ds], a text made of [\x03<n>] and a non-empty plain text [t]
    (which continues neither the digits nor the sequence) parses to the one
    run [t] with the single tag [foreground-<n>]. *)
Theorem parse_text_color_in_range (n : nat) (ds t : string) :
  is_digits12 ds = true ->
  number ds = n ->
  n <= 15 ->
  t <> EmptyString ->
  plain t = true ->
  ends_digits ds t = true ->
  starts_comma_digit t = false ->
  parse_text (String x03 ds ++ t)
  = ([(t, [("foreground-" ++ format_d n)%string])], None).
Proof.
  intros Hd Hn Hle Hne Hp He Hc.
  rewrite (parse_code_plain _ _ _ (cs_fg ds Hd)
             (style_code_fg _ _ Hd He Hc) Hp Hne).
  rewrite Hn. unfold tags_of, effect, palette16. cbn [fg bg underline initial].
  apply Nat.leb_le in Hle. rewrite Hle. reflexivity.
Qed.

Lemma parse_text_color_in_range_witness :
  parse_text (String x03 "04" ++ "there")
  = ([("there", ["foreground-4"])], None).
Proof.
  apply (parse_text_color_in_range 4 "04" "there");
    first [reflexivity | discriminate | (cbn; lia)].
Defined.

(** C3.  For every colour number [n] above 15 (written with the one or two
    digits [ds] that a colour sequence holds, so up to 99), a text made of
    [\x03<n>] and a non-empty plain text [t] parses to the one run [t] with
    no tag at all: the colour falls back to the default. *)
Theorem parse_text_color_out_of_range (n : nat) (ds t : string) :
  is_digits12 ds = true ->
  number ds = n ->
  15 < n ->
  t <> EmptyString ->
  plain t = true ->
  ends_digits ds t = true ->
  starts_comma_digit t = false ->
  parse_text (String x03 ds ++ t) = ([(t, [])], None).
Proof.
  intros Hd Hn Hlt Hne Hp He Hc.
  rewrite (parse_code_plain _ _ _ (cs_fg ds Hd)
             (style_code_fg _ _ Hd He Hc) Hp Hne).
  rewrite Hn. unfold tags_of, effect, palette16. cbn [fg bg underline initial].
  apply Nat.leb_gt in Hlt. rewrite Hlt. reflexivity.
Qed.

Lemma parse_text_color_out_of_range_witness :
  parse_text (String x03 "99" ++ "there") = ([("there", [])], None).
Proof.
  apply (parse_text_color_out_of_range 99 "99" "there");
    first [reflexivity | discriminate | (cbn; lia)].
Defined.

(** C5, as stated, fails on the empty string: it contains no control
    sequence, and [parse_text] yields no run for it, not one run with the
    empty text. *)
Lemma parse_text_empty_no_run :
  plain EmptyString = true
  /\ parse_text EmptyString = ([], None)
  /\ parse_text EmptyString <> ([(EmptyString, [])], None).
Proof. repeat split. discriminate. Qed.

(** C5, amended.  For every non-empty input without control sequences,
    [parse_text] yields exactly one run: the whole input with no tags. *)
Theorem parse_text_plain (text : string) :
  plain text = true ->
  text <> EmptyString ->
  parse_text text = ([(text, [])], None).
Proof.
  intros Hp Hne.
  rewrite parse_text_scan, (pairs_from_plain _ _ _ Hp).
  cbn [scan append style_after fold_left decode app].
  now rewrite (emit_nonempty _ _ Hne).
Qed.

Lemma parse_text_plain_witness :
  parse_text "Hello there" = ([("Hello there", [])], None).
Proof.
  apply parse_text_plain; [reflexivity|discriminate].
Defined.

(** *** After a reset *)

(** The control sequence in front of a text is only the first component of
    its first pair. *)
Lemma pairs_from_head (s : string) :
  forall piece,
    exists p0 tl, forall spec, pairs_from spec piece s = (spec, p0) :: tl.
Proof.
  induction s as [|c s Hc IH|s m rest Hm IH] using token_ind; intros piece.
  - exists piece, []. intros spec. apply pairs_from_nil.
  - destruct (IH (piece ++ String c EmptyString)%string) as (p0 & tl & H).
    exists p0, tl. intros spec. now rewrite (pairs_from_char _ _ _ _ Hc).
  - exists piece, (pairs_from m EmptyString rest). intros spec.
    apply (pairs_from_code _ _ _ _ _ Hm).
Qed.

Lemma scan_after_reset (st : style) (post : string) :
  scan st (pairs_from (String x0f EmptyString) EmptyString post)
  = scan initial (pairs_from EmptyString EmptyString post).
Proof.
  destruct (pairs_from_head post EmptyString) as (p0 & tl & H).
  rewrite !H. reflexivity.
Qed.

Lemma style_code_reset (post : string) :
  style_code (String x0f post) = Some (String x0f EmptyString, post).
Proof. reflexivity. Qed.

Lemma parse_text_reset (pre post : string) :
  parse_text (pre ++ String x0f post)
  = (fst (parse_text pre) ++ fst (parse_text post), None).
Proof.
  rewrite !parse_text_scan. cbn [fst].
  rewrite (pairs_from_app pre _ _ _ (style_code_reset post)).
  now rewrite scan_app, scan_after_reset.
Qed.

Lemma parse_text_plain_first (t post : string) :
  plain t = true ->
  t <> EmptyString ->
  post = EmptyString \/ (exists m rest, style_code post = Some (m, rest)) ->
  exists later, parse_text (t ++ post) = ((t, []) :: later, None).
Proof.
  intros Hp Hne [->|(m & rest & Hm)].
  - rewrite append_nil_r, (parse_text_plain _ Hp Hne). eauto.
  - rewrite parse_text_scan, (pairs_from_app t _ _ _ Hm).
    rewrite (pairs_from_plain _ _ _ Hp), scan_app.
    cbn [scan append style_after fold_left decode app].
    rewrite (emit_nonempty _ _ Hne). cbn [app]. eauto.
Qed.

(** C4.  Wherever a [\x0f] stands in the input, and whatever comes before
    it, the runs after it are the runs of the text after it parsed on its
    own, from the initial style; so a plain text right after the [\x0f], up
    to the next control sequence or the end, is a run without tags. *)
Theorem reset_clears_style :
  (forall pre post,
      parse_text (pre ++ String x0f post)
      = (fst (parse_text pre) ++ fst (parse_text post), None))
  /\ (forall pre t post,
        plain t = true ->
        t <> EmptyString ->
        post = EmptyString
        \/ (exists m rest, style_code post = Some (m, rest)) ->
        exists later,
          parse_text (pre ++ String x0f (t ++ post))
          = (fst (parse_text pre) ++ (t, []) :: later, None)).
Proof.
  split; [exact parse_text_reset|].
  intros pre t post Hp Hne Hpost.
  destruct (parse_text_plain_first t post Hp Hne Hpost) as [later E].
  exists later. now rewrite parse_text_reset, E.
Qed.

Lemma reset_clears_style_witness :
  exists later,
    parse_text ((String x1f (String x03 "4,5colourful"))
                  ++ String x0f ("plain" ++ String x02 "bold"))
    = (fst (parse_text (String x1f (String x03 "4,5colourful")))
         ++ ("plain", []) :: later, None).
Proof.
  apply (proj2 reset_clears_style
               (String x1f (String x03 "4,5colourful")) "plain"
               (String x02 "bold")).
  - reflexivity.
  - discriminate.
  - right. eexists. eexists. reflexivity.
Defined.

(** *** An out-of-range colour after a colour *)

Lemma parse_two_codes (m1 t1 m2 t2 : string) (c1 c2 : code) :
  control_sequence m1 c1 ->
  control_sequence m2 c2 ->
  style_code (m1 ++ t1) = Some (m1, t1) ->
  style_code (m2 ++ t2) = Some (m2, t2) ->
  plain t1 = true -> plain t2 = true ->
  t1 <> EmptyString -> t2 <> EmptyString ->
  parse_text ((m1 ++ t1) ++ (m2 ++ t2))
  = ([(t1, tags_of (effect initial c1));
      (t2, tags_of (effect (effect initial c1) c2))], None).
Proof.
  intros Hc1 Hc2 Hm1 Hm2 Hp1 Hp2 Hn1 Hn2.
  rewrite parse_text_scan, (pairs_from_app _ _ _ _ Hm2).
  rewrite (pairs_code_plain _ _ Hm1 Hp1), (pairs_from_plain _ _ _ Hp2).
  cbn [app scan append]. rewrite (style_after_sequence _ _ _ Hc1).
  cbn [style_after fold_left decode emit truthy app].
  change (match decode m2 with
          | Some c => effect (effect initial c1) c
          | None => effect initial c1
          end) with (style_after (effect initial c1) [m2]).
  rewrite (style_after_sequence _ _ _ Hc2).
  now rewrite (emit_nonempty _ _ Hn1), (emit_nonempty _ _ Hn2).
Qed.

Lemma palette16_in (n : nat) : n <= 15 -> palette16 n = Some n.
Proof. intros H. unfold palette16. apply Nat.leb_le in H. now rewrite H. Qed.

Lemma palette16_out (n : nat) : 15 < n -> palette16 n = None.
Proof. intros H. unfold palette16. apply Nat.leb_gt in H. now rewrite H. Qed.

(** C10.  An out-of-range colour number clears the colour that was active:
    from any style, [\x03<n>] with [n > 15] leaves no foreground, and
    [\x03<f>,<n>] with [n > 15] leaves no background.  After [\x03<m>] with
    [m <= 15], [\x03<n>] with [n > 15] gives a run without any tag, not
    [foreground-<m>]; and after [\x03<f>,<m>], the run after [\x03<f'>,<n>]
    has no background tag: its tags are the foreground tag of [f'], when
    [f'] is in range, and nothing else. *)
Theorem out_of_range_clears_color :
  (forall st nd,
      is_digits12 nd = true -> 15 < number nd ->
      apply_spec st (String x03 nd)
      = inr (mkStyle None (bg st) (underline st)))
  /\ (forall st fd nd,
        is_digits12 fd = true -> is_digits12 nd = true -> 15 < number nd ->
        exists f,
          apply_spec st (String x03 (fd ++ String "," nd))
          = inr (mkStyle f None (underline st)))
  /\ (forall md nd t1 t2,
        is_digits12 md = true -> number md <= 15 ->
        is_digits12 nd = true -> 15 < number nd ->
        plain t1 = true -> t1 <> EmptyString ->
        ends_digits md t1 = true -> starts_comma_digit t1 = false ->
        plain t2 = true -> t2 <> EmptyString ->
        ends_digits nd t2 = true -> starts_comma_digit t2 = false ->
        parse_text ((String x03 md ++ t1) ++ (String x03 nd ++ t2))
        = ([(t1, [("foreground-" ++ format_d (number md))%string]);
            (t2, [])], None))
  /\ (forall fd md fd' nd t1 t2,
        is_digits12 fd = true -> is_digits12 md = true ->
        number md <= 15 ->
        is_digits12 fd' = true -> is_digits12 nd = true ->
        15 < number nd ->
        plain t1 = true -> t1 <> EmptyString -> ends_digits md t1 = true ->
        plain t2 = true -> t2 <> EmptyString -> ends_digits nd t2 = true ->
        parse_text ((String x03 (fd ++ String "," md) ++ t1)
                      ++ (String x03 (fd' ++ String "," nd) ++ t2))
        = ([(t1, tags_of (mkStyle (palette16 (number fd))
                                  (Some (number md)) false));
            (t2, match palette16 (number fd') with
                 | Some f => [("foreground-" ++ format_d f)%string]
                 | None => []
                 end)], None)).
Proof.
  split; [|split; [|split]].
  - intros st nd Hd Hn.
    rewrite (apply_spec_fg _ _ Hd). cbn [effect].
    now rewrite (palette16_out _ Hn).
  - intros st fd nd Hf Hd Hn.
    rewrite (apply_spec_fg_bg _ _ _ Hf Hd). cbn [effect].
    rewrite (palette16_out _ Hn). eauto.
  - intros md nd t1 t2 Hm Hmr Hn Hnr Hp1 Hn1 He1 Hc1 Hp2 Hn2 He2 Hc2.
    rewrite (parse_two_codes _ _ _ _ _ _ (cs_fg md Hm) (cs_fg nd Hn)
               (style_code_fg _ _ Hm He1 Hc1) (style_code_fg _ _ Hn He2 Hc2)
               Hp1 Hp2 Hn1 Hn2).
    cbn [effect initial fg bg underline].
    rewrite (palette16_in _ Hmr), (palette16_out _ Hnr). reflexivity.
  - intros fd md fd' nd t1 t2 Hf Hm Hmr Hf' Hn Hnr Hp1 Hn1 He1 Hp2 Hn2 He2.
    rewrite (parse_two_codes _ _ _ _ _ _
               (cs_fg_bg fd md Hf Hm) (cs_fg_bg fd' nd Hf' Hn)
               (style_code_fg_bg _ _ _ Hf Hm He1)
               (style_code_fg_bg _ _ _ Hf' Hn He2) Hp1 Hp2 Hn1 Hn2).
    cbn [effect initial fg bg underline].
    rewrite (palette16_in _ Hmr), (palette16_out _ Hnr).
    unfold tags_of at 2. cbn [fg bg underline].
    destruct (palette16 (number fd')); reflexivity.
Qed.

Lemma out_of_range_clears_color_witness :
  parse_text ((String x03 "04" ++ "red") ++ (String x03 "99" ++ "default"))
  = ([("red", ["foreground-4"]); ("default", [])], None).
Proof.
  apply (proj1 (proj2 (proj2 out_of_range_clears_color))
               "04" "99" "red" "default");
    first [reflexivity | discriminate | (cbn; lia)].
Defined.

(** *** Carrying the style forward *)

Lemma firstn_S_nth {A : Type} (d : A) (l : list A) :
  forall n, n < List.length l -> firstn (S n) l = firstn n l ++ [nth n l d].
Proof.
  induction l as [|x l IH]; intros n H; cbn [List.length] in H; [lia|].
  destruct n as [|n]; [reflexivity|].
  cbn [firstn nth app] in *. f_equal. apply IH. lia.
Qed.

Lemma style_at_step (pairs : list (string * string)) (j : nat) :
  S j < List.length pairs ->
  style_at pairs (S j)
  = style_after (style_at pairs j) [spec_at pairs (S j)].
Proof.
  intros H. unfold style_at, spec_at.
  rewrite (firstn_S_nth (EmptyString, EmptyString) pairs (S j) H).
  now rewrite map_app, style_after_app.
Qed.

Lemma style_at_first (pairs : list (string * string)) (i : nat) :
  i < List.length pairs ->
  style_at pairs i
  = style_after (style_after initial (map fst (firstn i pairs)))
                [spec_at pairs i].
Proof.
  intros H. unfold style_at, spec_at.
  rewrite (firstn_S_nth (EmptyString, EmptyString) pairs i H).
  now rewrite map_app, style_after_app.
Qed.

(** A property of the style set at index [i] and kept by the control
    sequences of the indices [i+1..j] holds at index [j]. *)
Lemma style_at_carried (P : style -> Prop) (keeps : string -> bool)
      (pairs : list (string * string)) (i : nat) :
  (forall st spec, keeps spec = true -> P st -> P (style_after st [spec])) ->
  P (style_at pairs i) ->
  forall j,
    i <= j -> j < List.length pairs ->
    (forall k, i < k -> k <= j -> keeps (spec_at pairs k) = true) ->
    P (style_at pairs j).
Proof.
  intros Hkeep Hi j Hij. induction Hij as [|j Hij IH]; intros Hj Hk.
  - exact Hi.
  - rewrite (style_at_step _ _ Hj). apply Hkeep; [apply Hk; lia|].
    apply IH; [lia|]. intros k H1 H2. apply Hk; lia.
Qed.

Lemma keeps_fg_after (n : option nat) (st : style) (spec : string) :
  keeps_fg spec = true -> fg st = n -> fg (style_after st [spec]) = n.
Proof.
  unfold keeps_fg. cbn [style_after fold_left].
  destruct (decode spec) as [[| | |f [b|]]|]; cbn; congruence.
Qed.

Lemma keeps_bg_after (n : option nat) (st : style) (spec : string) :
  keeps_bg spec = true -> bg st = n -> bg (style_after st [spec]) = n.
Proof.
  unfold keeps_bg. cbn [style_after fold_left].
  destruct (decode spec) as [[| | |f [b|]]|]; cbn; congruence.
Qed.

Lemma keeps_underline_after (st : style) (spec : string) :
  keeps_underline spec = true ->
  underline st = true -> underline (style_after st [spec]) = true.
Proof.
  unfold keeps_underline. cbn [style_after fold_left].
  destruct (decode spec) as [[| | |f [b|]]|]; cbn; congruence.
Qed.

Lemma tags_of_style (st : style) :
  (forall n, fg st = Some n ->
             In ("foreground-" ++ format_d n)%string (tags_of st))
  /\ (forall n, bg st = Some n ->
                In ("background-" ++ format_d n)%string (tags_of st))
  /\ (underline st = true -> In "underline" (tags_of st)).
Proof.
  unfold tags_of. split; [|split].
  - intros n ->. apply in_or_app. left. now left.
  - intros n ->. apply in_or_app. right. apply in_or_app. left. now left.
  - intros ->. apply in_or_app. right. apply in_or_app. right. now left.
Qed.

(** The run of the pair at index [j] stands in the output after the runs of
    the pairs in front of it. *)
Lemma runs_before_cons (spec sub : string)
      (pairs : list (string * string)) (j : nat) (st : style) :
  runs_before ((spec, sub) :: pairs) (S j)
  = List.length (emit st sub) + runs_before pairs j.
Proof.
  unfold runs_before. cbn [firstn filter snd]. now destruct sub.
Qed.

Lemma scan_nth (pairs : list (string * string)) :
  forall st j,
    j < List.length pairs ->
    text_at pairs j <> EmptyString ->
    nth_error (scan st pairs) (runs_before pairs j)
    = Some (text_at pairs j,
            style_tags (style_after st (map fst (firstn (S j) pairs)))).
Proof.
  induction pairs as [|[spec sub] pairs IH]; intros st j Hj Hne;
    [cbn in Hj; lia|].
  destruct j as [|j].
  - unfold text_at in *. cbn [nth snd] in *. cbn [scan].
    destruct sub as [|c sub]; [contradiction|]. reflexivity.
  - cbn [List.length] in Hj.
    assert (Hne' : text_at pairs j <> EmptyString) by exact Hne.
    rewrite (runs_before_cons spec sub pairs j (style_after st [spec])).
    cbn [scan]. rewrite nth_error_app2 by lia.
    replace (List.length (emit (style_after st [spec]) sub)
             + runs_before pairs j
             - List.length (emit (style_after st [spec]) sub))
      with (runs_before pairs j) by lia.
    rewrite (IH (style_after st [spec]) j) by (assumption || lia).
    reflexivity.
Qed.

Lemma run_at (text : string) (j : nat) :
  j < List.length (zip_parts (parts_of text)) ->
  text_at (zip_parts (parts_of text)) j <> EmptyString ->
  nth_error (fst (parse_text text))
            (runs_before (zip_parts (parts_of text)) j)
  = Some (text_at (zip_parts (parts_of text)) j,
          style_tags (style_at (zip_parts (parts_of text)) j)).
Proof.
  intros Hj Hne. rewrite parse_text_scan. cbn [fst].
  exact (scan_nth _ initial j Hj Hne).
Qed.

Lemma style_tags_fg (st : style) (n : nat) :
  fg st = Some n -> In ("foreground-" ++ decimal n)%string (style_tags st).
Proof. unfold style_tags. intros ->. apply in_or_app. left. now left. Qed.

Lemma style_tags_bg (st : style) (n : nat) :
  bg st = Some n -> In ("background-" ++ decimal n)%string (style_tags st).
Proof.
  unfold style_tags. intros ->.
  apply in_or_app. right. apply in_or_app. left. now left.
Qed.

Lemma style_tags_underline (st : style) :
  underline st = true -> In "underline" (style_tags st).
Proof.
  unfold style_tags. intros ->.
  apply in_or_app. right. apply in_or_app. right. now left.
Qed.

Lemma fg_carried (pairs : list (string * string)) (i j f : nat)
      (bgo : option nat) :
  i <= j -> j < List.length pairs ->
  decode (spec_at pairs i) = Some (Color f bgo) ->
  (forall k, i < k -> k <= j -> keeps_fg (spec_at pairs k) = true) ->
  fg (style_at pairs j) = palette16 f.
Proof.
  intros Hij Hj Hd Hk.
  apply (style_at_carried (fun st => fg st = palette16 f) keeps_fg pairs i);
    try assumption.
  - intros st spec. apply keeps_fg_after.
  - rewrite style_at_first by lia. cbn [style_after fold_left].
    rewrite Hd. destruct bgo; reflexivity.
Qed.

Lemma bg_carried (pairs : list (string * string)) (i j f b : nat) :
  i <= j -> j < List.length pairs ->
  decode (spec_at pairs i) = Some (Color f (Some b)) ->
  (forall k, i < k -> k <= j -> keeps_bg (spec_at pairs k) = true) ->
  bg (style_at pairs j) = palette16 b.
Proof.
  intros Hij Hj Hd Hk.
  apply (style_at_carried (fun st => bg st = palette16 b) keeps_bg pairs i);
    try assumption.
  - intros st spec. apply keeps_bg_after.
  - rewrite style_at_first by lia. cbn [style_after fold_left].
    rewrite Hd. reflexivity.
Qed.

Lemma underline_carried (pairs : list (string * string)) (i j : nat) :
  i <= j -> j < List.length pairs ->
  decode (spec_at pairs i) = Some Underline ->
  (forall k, i < k -> k <= j -> keeps_underline (spec_at pairs k) = true) ->
  underline (style_at pairs j) = true.
Proof.
  intros Hij Hj Hd Hk.
  apply (style_at_carried (fun st => underline st = true)
                          keeps_underline pairs i);
    try assumption.
  - intros st spec. apply keeps_underline_after.
  - rewrite style_at_first by lia. cbn [style_after fold_left].
    rewrite Hd. reflexivity.
Qed.

(** C7.  [parse_text] is one pass over the pairs of control sequence and
    text.  Its output is, for each pair with a non-empty text and in order,
    that text with the tags [foreground-<n>], [background-<n>], [underline]
    of the style after all the control sequences up to that pair; the run of
    the pair at index [j] stands after the runs of the pairs in front of it.
    A component of the style set by the control sequence of a pair [i] is
    still there at every later pair [j] as long as no control sequence in
    between overwrites it (a colour sequence) or clears it ([\x0f]), and
    the run that [parse_text] yields for the pair [j] carries its tag. *)
Theorem parse_text_carries_style (text : string) :
  let pairs := zip_parts (parts_of text) in
  let runs := fst (parse_text text) in
  parse_text text = (runs_of pairs, None)
  /\ (forall j,
        j < List.length pairs -> text_at pairs j <> EmptyString ->
        nth_error runs (runs_before pairs j)
        = Some (text_at pairs j, style_tags (style_at pairs j)))
  /\ (forall i j f bgo,
        i <= j -> j < List.length pairs ->
        decode (spec_at pairs i) = Some (Color f bgo) ->
        (forall k, i < k -> k <= j -> keeps_fg (spec_at pairs k) = true) ->
        fg (style_at pairs j) = palette16 f
        /\ (f <= 15 -> text_at pairs j <> EmptyString ->
            exists tags,
              nth_error runs (runs_before pairs j)
              = Some (text_at pairs j, tags)
              /\ In ("foreground-" ++ decimal f)%string tags))
  /\ (forall i j f b,
        i <= j -> j < List.length pairs ->
        decode (spec_at pairs i) = Some (Color f (Some b)) ->
        (forall k, i < k -> k <= j -> keeps_bg (spec_at pairs k) = true) ->
        bg (style_at pairs j) = palette16 b
        /\ (b <= 15 -> text_at pairs j <> EmptyString ->
            exists tags,
              nth_error runs (runs_before pairs j)
              = Some (text_at pairs j, tags)
              /\ In ("background-" ++ decimal b)%string tags))
  /\ (forall i j,
        i <= j -> j < List.length pairs ->
        decode (spec_at pairs i) = Some Underline ->
        (forall k, i < k -> k <= j ->
                   keeps_underline (spec_at pairs k) = true) ->
        underline (style_at pairs j) = true
        /\ (text_at pairs j <> EmptyString ->
            exists tags,
              nth_error runs (runs_before pairs j)
              = Some (text_at pairs j, tags)
              /\ In "underline" tags))
  /\ (forall st,
        (forall n, fg st = Some n ->
                   In ("foreground-" ++ format_d n)%string (tags_of st))
        /\ (forall n, bg st = Some n ->
                      In ("background-" ++ format_d n)%string (tags_of st))
        /\ (underline st = true -> In "underline" (tags_of st))).
Proof.
  intros pairs runs. split; [|split; [|split; [|split; [|split]]]].
  - rewrite parse_text_scan, scan_runs_of. reflexivity.
  - intros j Hj Hne. now apply run_at.
  - intros i j f bgo Hij Hj Hd Hk.
    pose proof (fg_carried pairs i j f bgo Hij Hj Hd Hk) as Hfg.
    split; [exact Hfg|]. intros Hf Hne.
    exists (style_tags (style_at pairs j)). split; [now apply run_at|].
    apply style_tags_fg. rewrite Hfg. unfold palette16.
    apply Nat.leb_le in Hf. now rewrite Hf.
  - intros i j f b Hij Hj Hd Hk.
    pose proof (bg_carried pairs i j f b Hij Hj Hd Hk) as Hbg.
    split; [exact Hbg|]. intros Hb Hne.
    exists (style_tags (style_at pairs j)). split; [now apply run_at|].
    apply style_tags_bg. rewrite Hbg. unfold palette16.
    apply Nat.leb_le in Hb. now rewrite Hb.
  - intros i j Hij Hj Hd Hk.
    pose proof (underline_carried pairs i j Hij Hj Hd Hk) as Hu.
    split; [exact Hu|]. intros Hne.
    exists (style_tags (style_at pairs j)). split; [now apply run_at|].
    now apply style_tags_underline.
  - apply tags_of_style.
Qed.

Lemma parse_text_carries_style_witness :
  exists tags,
    nth_error
      (fst (parse_text (String x03 "4red" ++ String x1f "line"
                          ++ String x02 "bold")))
      2
    = Some ("bold", tags)
    /\ In "foreground-4" tags.
Proof.
  apply (proj2 (proj1 (proj2 (proj2 (parse_text_carries_style
                                       (String x03 "4red" ++ String x1f "line"
                                          ++ String x02 "bold"))))
                      1 3 4 None
                      ltac:(lia) ltac:(vm_compute; lia) eq_refl
                      ltac:(intros k H1 H2;
                            assert (E : k = 2 \/ k = 3) by lia;
                            destruct E as [->| ->]; reflexivity))).
  - lia.
  - discriminate.
Defined.

End ParseText.

(* ================================================================== *)
(** ** Properties of [find_and_tag_urls] *)
(* ================================================================== *)

Module UrlFacts.
Import PyStr Re TextwidgetTags Spec TokenFacts.

Lemma prefix_of_refl (s : string) : prefix_of s s.
Proof. exists EmptyString. now rewrite append_nil_r. Qed.

Lemma prefix_of_trans (a b c : string) :
  prefix_of a b -> prefix_of b c -> prefix_of a c.
Proof.
  intros [r1 ->] [r2 ->]. exists (r1 ++ r2)%string. apply append_assoc.
Qed.

(** *** [rstrip] *)

Lemma rstrip_junk (chars s : string) :
  exists junk,
    s = (rstrip chars s ++ junk)%string /\ all_in chars junk = true.
Proof.
  induction s as [|c s (junk & E & A)].
  - exists EmptyString. now split.
  - cbn [rstrip]. destruct (rstrip chars s) as [|d t] eqn:R.
    + cbn [append] in E. subst junk.
      destruct (mem c chars) eqn:M.
      * exists (String c s). cbn [append all_in]. now rewrite M, A.
      * exists s. now split.
    + exists junk. cbn [append] in *. now rewrite <- E.
Qed.

Lemma rstrip_ends (chars s : string) :
  ends_in chars (rstrip chars s) = false.
Proof.
  induction s as [|c s IH]; [reflexivity|].
  cbn [rstrip]. destruct (rstrip chars s) as [|d t] eqn:R.
  - destruct (mem c chars) eqn:M; [reflexivity|]. cbn. exact M.
  - exact IH.
Qed.

Lemma rstrip_fixed (chars s : string) :
  ends_in chars s = false -> rstrip chars s = s.
Proof.
  induction s as [|c s IH]; [reflexivity|].
  intros H. cbn [rstrip]. destruct s as [|d t].
  - cbn in *. now rewrite H.
  - rewrite (IH H). reflexivity.
Qed.

Lemma rstrip_idempotent (chars s : string) :
  rstrip chars (rstrip chars s) = rstrip chars s.
Proof. apply rstrip_fixed, rstrip_ends. Qed.

Lemma rstrip_prefix (chars s : string) : prefix_of (rstrip chars s) s.
Proof. destruct (rstrip_junk chars s) as (junk & E & _). now exists junk. Qed.

(** *** [split] *)

Lemma split_first_prefix (sep : ascii) (s : string) :
  prefix_of (fst (split sep s)) s.
Proof.
  induction s as [|c s [r E]]; [apply prefix_of_refl|].
  cbn [split]. destruct (split sep s) as [h t]. cbn [fst] in E.
  destruct (Ascii.eqb c sep); cbn [fst].
  - now exists (String c s).
  - exists r. cbn [append]. now rewrite <- E.
Qed.

Lemma cut_url_prefix (line : string) : prefix_of (cut_url line) line.
Proof.
  unfold cut_url.
  repeat (eapply prefix_of_trans; [apply split_first_prefix|]).
  apply prefix_of_refl.
Qed.

Lemma strip_url_prefix (url : string) : prefix_of (strip_url url) url.
Proof.
  unfold strip_url.
  eapply prefix_of_trans; [apply rstrip_prefix|].
  eapply prefix_of_trans; [|apply rstrip_prefix].
  destruct (negb (mem "(" (rstrip ".,?!" url)));
    [apply rstrip_prefix|apply prefix_of_refl].
Qed.

(** *** The widget *)

Lemma take_append (u r : string) : Tk.take (String.length u) (u ++ r) = u.
Proof. induction u as [|c u IH]; cbn; [now destruct r|now rewrite IH]. Qed.

Lemma take_prefix (n : nat) (s : string) : prefix_of (Tk.take n s) s.
Proof.
  revert s. induction n as [|n IH]; intros s; [now exists s|].
  destruct s as [|c s]; [apply prefix_of_refl|].
  destruct (IH s) as [r E]. exists r. cbn [Tk.take append]. now rewrite <- E.
Qed.

Lemma get_from (w : Tk.text) (i n : nat) :
  Tk.get w i (i + n) = Tk.take n (Tk.skip i (Tk.content w)).
Proof. unfold Tk.get. now replace (i + n - i) with n by lia. Qed.

Lemma url_at_prefix (w : Tk.text) (i : nat) :
  prefix_of (url_at w i) (Tk.skip i (Tk.content w)).
Proof.
  unfold url_at.
  eapply prefix_of_trans; [apply strip_url_prefix|].
  eapply prefix_of_trans; [apply cut_url_prefix|].
  unfold Tk.lineend. rewrite get_from. apply take_prefix.
Qed.

(** The characters of the tagged range are the URL. *)
Lemma get_url_at (w : Tk.text) (i : nat) :
  Tk.get w i (i + String.length (url_at w i)) = url_at w i.
Proof.
  rewrite get_from. destruct (url_at_prefix w i) as [r E].
  rewrite E. apply take_append.
Qed.

Lemma tag_add_content (w : Tk.text) (name : string) (i j : nat) :
  Tk.content (Tk.tag_add w name i j) = Tk.content w.
Proof. unfold Tk.tag_add. now destruct (Nat.ltb i j). Qed.

Lemma url_at_content (w w' : Tk.text) (i : nat) :
  Tk.content w' = Tk.content w -> url_at w' i = url_at w i.
Proof.
  intros E. unfold url_at, Tk.get, Tk.lineend. now rewrite E.
Qed.

Lemma get_content (w w' : Tk.text) (i j : nat) :
  Tk.content w' = Tk.content w -> Tk.get w' i j = Tk.get w i j.
Proof. intros E. unfold Tk.get. now rewrite E. Qed.

(** *** The loop *)

Section Loop.
Variable search : Tk.text -> nat -> nat -> option nat.

(** One iteration keeps the characters and adds at most one tag, which
    covers the URL at the index found. *)
Lemma tag_next_url_spec (w w' : Tk.text) (a stop next : nat) :
  tag_next_url search w a stop = Some (w', next) ->
  exists i,
    search w a stop = Some i
    /\ next = i + String.length (url_at w i) + 1
    /\ Tk.content w' = Tk.content w
    /\ exists added,
        Tk.tags w' = Tk.tags w ++ added /\ Forall (url_tag w) added.
Proof.
  unfold tag_next_url. destruct (search w a stop) as [i|]; [|discriminate].
  fold (url_at w i). intros H. inversion H; subst; clear H.
  exists i. split; [reflexivity|]. split; [reflexivity|].
  split; [apply tag_add_content|].
  unfold Tk.tag_add. destruct (Nat.ltb i (i + String.length (url_at w i))).
  - exists [("url", i, i + String.length (url_at w i))].
    split; [reflexivity|]. constructor; [|constructor].
    cbn. split; [reflexivity|]. split; [reflexivity|]. apply get_url_at.
  - exists []. split; [now rewrite app_nil_r|constructor].
Qed.

Lemma url_tag_content (w w' : Tk.text) (tag : string * nat * nat) :
  Tk.content w' = Tk.content w -> url_tag w' tag -> url_tag w tag.
Proof.
  intros E. destruct tag as [[name i] j]. unfold url_tag.
  now rewrite (url_at_content _ _ _ E), (get_content _ _ _ _ E).
Qed.

Lemma url_loop_tags (fuel : nat) :
  forall w a stop,
  exists added,
    url_loop search fuel w a stop
    = Tk.mkText (Tk.content w) (Tk.tags w ++ added)
    /\ Forall (url_tag w) added.
Proof.
  induction fuel as [|fuel IH]; intros w a stop.
  - exists []. rewrite app_nil_r. destruct w. split; [reflexivity|constructor].
  - cbn [url_loop].
    destruct (tag_next_url search w a stop) as [[w' next]|] eqn:E.
    + apply tag_next_url_spec in E.
      destruct E as (i & _ & _ & Hc & added1 & Ht & Hall1).
      destruct (IH w' next stop) as (added2 & -> & Hall2).
      exists (added1 ++ added2). rewrite Hc, Ht, <- app_assoc.
      split; [reflexivity|]. apply Forall_app. split; [exact Hall1|].
      eapply Forall_impl; [|exact Hall2].
      intros tag. now apply url_tag_content.
    + exists []. rewrite app_nil_r. destruct w.
      split; [reflexivity|constructor].
Qed.

(** With a search that answers inside its range, [stop - start + 1]
    iterations reach the [break]: more fuel changes nothing. *)
Lemma url_loop_enough (Hsearch : in_range_search search) (fuel : nat) :
  forall w a stop f',
    stop - a < fuel -> stop - a < f' ->
    url_loop search fuel w a stop = url_loop search f' w a stop.
Proof.
  induction fuel as [|fuel IH]; intros w a stop f' H H'; [lia|].
  destruct f' as [|f']; [lia|]. cbn [url_loop].
  destruct (tag_next_url search w a stop) as [[w' next]|] eqn:E;
    [|reflexivity].
  apply tag_next_url_spec in E. destruct E as (i & Hs & -> & _).
  apply Hsearch in Hs. apply IH; lia.
Qed.

End Loop.

Lemma search_word_in_range (r : regex) (s : string) :
  forall behind pos start stop i,
    Tk.search_word r behind s pos start stop = Some i ->
    start <= i /\ i < stop.
Proof.
  induction s as [|c s IH]; intros behind pos start stop i H; [discriminate|].
  cbn [Tk.search_word] in H.
  destruct (Nat.leb start pos) eqn:E1; cbn [andb] in H; [|now apply IH in H].
  destruct (Nat.ltb pos stop) eqn:E2; cbn [andb] in H; [|now apply IH in H].
  match type of H with
  | (if ?b then _ else _) = _ => destruct b; [|now apply IH in H]
  end.
  inversion H; subst. apply Nat.leb_le in E1. apply Nat.ltb_lt in E2. lia.
Qed.

(** The search used in the examples answers inside its range. *)
Lemma search_url_in_range : in_range_search search_url.
Proof.
  intros w a b i H. unfold search_url in H.
  now apply search_word_in_range in H.
Qed.

Lemma strip_url_paren (url : string) :
  mem "(" (rstrip ".,?!" url) = true ->
  strip_url url = rstrip ".,?!" url.
Proof.
  intros H. unfold strip_url. rewrite H. cbn [negb].
  apply rstrip_idempotent.
Qed.

Lemma strip_url_no_paren (url : string) :
  mem "(" (rstrip ".,?!" url) = false ->
  strip_url url = rstrip ".,?!" (rstrip ")" (rstrip ".,?!" url)).
Proof. intros H. unfold strip_url. now rewrite H. Qed.

Lemma tag_next_url_found
      (search : Tk.text -> nat -> nat -> option nat)
      (w : Tk.text) (start stop i : nat) :
  search w start stop = Some i ->
  url_at w i <> EmptyString ->
  tag_next_url search w start stop
  = Some (Tk.mkText (Tk.content w)
                    (Tk.tags w
                       ++ [("url", i, i + String.length (url_at w i))]),
          i + String.length (url_at w i) + 1).
Proof.
  intros Hs Hne. unfold tag_next_url. rewrite Hs.
  fold (url_at w i). unfold Tk.tag_add.
  assert (L : Nat.ltb i (i + String.length (url_at w i)) = true).
  { apply Nat.ltb_lt. destruct (url_at w i); [contradiction|cbn; lia]. }
  now rewrite L.
Qed.

(** With enough fuel the loop tags the URL at the first index found and goes
    on behind it. *)
Lemma url_loop_first
      (search : Tk.text -> nat -> nat -> option nat) (fuel : nat)
      (w : Tk.text) (start stop i : nat) :
  in_range_search search ->
  stop - start < fuel ->
  search w start stop = Some i ->
  url_at w i <> EmptyString ->
  url_loop search fuel w start stop
  = url_loop search fuel
             (Tk.mkText (Tk.content w)
                        (Tk.tags w
                           ++ [("url", i, i + String.length (url_at w i))]))
             (i + String.length (url_at w i) + 1) stop.
Proof.
  intros Hsearch Hfuel Hs Hne.
  destruct (Hsearch _ _ _ _ Hs) as [Hlo Hhi].
  destruct fuel as [|f]; [lia|].
  rewrite (url_loop_enough
             search Hsearch (S f)
             (Tk.mkText (Tk.content w)
                        (Tk.tags w
                           ++ [("url", i, i + String.length (url_at w i))]))
             (i + String.length (url_at w i) + 1) stop f) by lia.
  cbn [url_loop]. now rewrite (tag_next_url_found _ _ _ _ _ Hs Hne).
Qed.

Lemma url_loop_first_tag
      (search : Tk.text -> nat -> nat -> option nat) (fuel : nat)
      (w : Tk.text) (start stop i : nat) :
  in_range_search search ->
  stop - start < fuel ->
  search w start stop = Some i ->
  url_at w i <> EmptyString ->
  (exists later,
      Tk.tags (url_loop search fuel w start stop)
      = Tk.tags w ++ ("url", i, i + String.length (url_at w i)) :: later)
  /\ Tk.get (url_loop search fuel w start stop)
            i (i + String.length (url_at w i))
     = url_at w i.
Proof.
  intros Hsearch Hfuel Hs Hne.
  rewrite (url_loop_first search fuel w start stop i Hsearch Hfuel Hs Hne).
  match goal with
  | |- context [url_loop search fuel ?w1 ?a stop] =>
      destruct (url_loop_tags search fuel w1 a stop) as (later & -> & _)
  end.
  cbn [Tk.tags Tk.content]. split.
  - exists later. now rewrite <- app_assoc.
  - transitivity (Tk.get w i (i + String.length (url_at w i)));
      [reflexivity|apply get_url_at].
Qed.

(** C8.  The URL taken from a candidate: the trailing characters among
    [.,?!] are removed; then, only when what is left contains no [(], the
    trailing [)] characters are removed and after them the trailing
    characters among [.,?!] again; with a [(] in it, what is left after the
    first step is the URL.  Every tag the loop adds is named [url], starts
    at an index and ends as many characters later as the URL taken there is
    long, and the characters it covers are that URL; the characters of the
    widget do not change.  With a search that answers inside the range it
    is given, [stop - start + 1] iterations reach the [break]; then
    [find_and_tag_urls] tags the URL at the first index the search finds,
    over exactly the characters of the stripped URL, and goes on in the same
    way from one character behind it; when the search finds nothing it
    leaves the widget as it is. *)
Theorem url_tag_covers_stripped_url :
  (forall url,
      let u1 := rstrip ".,?!" url in
      (exists junk, url = (u1 ++ junk)%string /\ all_in ".,?!" junk = true)
      /\ ends_in ".,?!" u1 = false
      /\ (mem "(" u1 = true -> strip_url url = u1)
      /\ (mem "(" u1 = false ->
          let u2 := rstrip ")" u1 in
          (exists junk, u1 = (u2 ++ junk)%string /\ all_in ")" junk = true)
          /\ ends_in ")" u2 = false
          /\ strip_url url = rstrip ".,?!" u2
          /\ (exists junk, u2 = (strip_url url ++ junk)%string
                           /\ all_in ".,?!" junk = true)
          /\ ends_in ".,?!" (strip_url url) = false))
  /\ (forall search fuel w start stop,
        exists added,
          find_and_tag_urls search fuel w start stop
          = Tk.mkText (Tk.content w) (Tk.tags w ++ added)
          /\ Forall (url_tag w) added)
  /\ (forall search w start stop i,
        search w start stop = Some i ->
        url_at w i <> EmptyString ->
        tag_next_url search w start stop
        = Some (Tk.mkText (Tk.content w)
                          (Tk.tags w
                             ++ [("url", i, i + String.length (url_at w i))]),
                i + String.length (url_at w i) + 1))
  /\ (forall search fuel fuel' w start stop,
        in_range_search search ->
        stop - start < fuel -> stop - start < fuel' ->
        find_and_tag_urls search fuel w start stop
        = find_and_tag_urls search fuel' w start stop)
  /\ (forall search fuel w start stop i,
        in_range_search search ->
        stop - start < fuel ->
        search w start stop = Some i ->
        url_at w i <> EmptyString ->
        find_and_tag_urls search fuel w start stop
        = find_and_tag_urls
            search fuel
            (Tk.mkText (Tk.content w)
                       (Tk.tags w
                          ++ [("url", i, i + String.length (url_at w i))]))
            (i + String.length (url_at w i) + 1) stop
        /\ (exists later,
              Tk.tags (find_and_tag_urls search fuel w start stop)
              = Tk.tags w
                  ++ ("url", i, i + String.length (url_at w i)) :: later)
        /\ Tk.get (find_and_tag_urls search fuel w start stop)
                  i (i + String.length (url_at w i))
           = strip_url (cut_url (Tk.get w i (Tk.lineend w i))))
  /\ (forall search fuel w start stop,
        search w start stop = None ->
        find_and_tag_urls search fuel w start stop = w).
Proof.
  split; [|split; [|split; [|split; [|split]]]].
  - intros url u1. split; [apply rstrip_junk|]. split; [apply rstrip_ends|].
    split; [apply strip_url_paren|].
    intros H u2. rewrite (strip_url_no_paren _ H). fold u1. fold u2.
    split; [apply rstrip_junk|]. split; [apply rstrip_ends|].
    split; [reflexivity|]. split; [apply rstrip_junk|apply rstrip_ends].
  - intros search fuel w start stop. apply url_loop_tags.
  - intros search w start stop i Hs Hne. now apply tag_next_url_found.
  - intros search fuel fuel' w start stop Hs H H'.
    now apply url_loop_enough.
  - intros search fuel w start stop i Hsearch Hfuel Hs Hne.
    unfold find_and_tag_urls. split; [now apply url_loop_first|].
    now apply url_loop_first_tag.
  - intros search fuel w start stop Hs. unfold find_and_tag_urls.
    destruct fuel as [|f]; [reflexivity|].
    cbn [url_loop]. unfold tag_next_url. now rewrite Hs.
Qed.

Lemma url_tag_covers_stripped_url_witness :
  (exists later,
      Tk.tags (find_and_tag_urls search_url 61 sample_widget 0 60)
      = Tk.tags sample_widget ++ ("url", 5, 25) :: later)
  /\ Tk.get (find_and_tag_urls search_url 61 sample_widget 0 60) 5 25
     = "http://example.com/a".
Proof.
  apply (proj2 (proj1 (proj2 (proj2 (proj2 (proj2
           url_tag_covers_stripped_url))))
                      search_url 61 sample_widget 0 60 5
                      search_url_in_range ltac:(cbn; lia) eq_refl
                      ltac:(discriminate))).
Defined.

Example find_and_tag_urls_sample :
  find_and_tag_urls search_url 61 sample_widget 0 60
  = Tk.mkText (Tk.content sample_widget) [("url", 5, 25); ("url", 32, 55)].
Proof. vm_compute. reflexivity. Qed.

End UrlFacts.

(* ================================================================== *)
(** ** More properties of [parse_text] *)
(* ================================================================== *)

Module ParseTextMore.
Import PyStr Re TextwidgetTags Spec ReFacts TokenFacts ParseFacts.

Lemma palette16_bound (n m : nat) : palette16 n = Some m -> m <= 15.
Proof.
  unfold palette16. destruct (Nat.leb n 15) eqn:E; [|discriminate].
  intros H. inversion H; subst. now apply Nat.leb_le.
Qed.

Lemma in_palette_initial : in_palette initial.
Proof. split; intros n H; discriminate H. Qed.

Lemma in_palette_effect (st : style) (c : code) :
  in_palette st -> in_palette (effect st c).
Proof.
  intros [Hf Hb]. destruct c as [| | |f [b|]]; cbn [effect].
  - now split.
  - now split.
  - apply in_palette_initial.
  - split; cbn; intros n H; eauto using palette16_bound.
  - split; cbn; intros n H; eauto using palette16_bound.
Qed.

Lemma in_palette_after (st : style) (spec : string) :
  in_palette st -> in_palette (style_after st [spec]).
Proof.
  intros H. cbn [style_after fold_left].
  destruct (decode spec); [now apply in_palette_effect|exact H].
Qed.

Lemma scan_in_palette (pairs : list (string * string)) :
  forall st,
    in_palette st ->
    Forall (fun r : run => exists st', in_palette st' /\ snd r = tags_of st')
           (scan st pairs).
Proof.
  induction pairs as [|[spec sub] pairs IH]; intros st H; [constructor|].
  cbn [scan]. pose proof (in_palette_after st spec H) as H'.
  apply Forall_app. split; [|now apply IH].
  destruct sub; cbn; constructor; [|constructor]. eauto.
Qed.

(** X1.  [parse_text] never yields a colour tag outside the palette: the tag
    list of every run is that of a style whose foreground and background,
    when set, are numbers from 0 to 15; so it holds, in this order, at most
    one [foreground-<n>], at most one [background-<n>] and at most one
    [underline]. *)
Theorem parse_text_tags_in_palette (text : string) :
  Forall (fun r : run =>
            exists f b u,
              (forall n, f = Some n -> n <= 15)
              /\ (forall n, b = Some n -> n <= 15)
              /\ snd r
                 = (match f with
                    | Some n => [("foreground-" ++ format_d n)%string]
                    | None => []
                    end)
                   ++ (match b with
                       | Some n => [("background-" ++ format_d n)%string]
                       | None => []
                       end)
                   ++ (if u : bool then ["underline"] else []))
         (fst (parse_text text)).
Proof.
  rewrite parse_text_scan. cbn [fst].
  eapply Forall_impl; [|apply scan_in_palette, in_palette_initial].
  intros r (st & [Hf Hb] & E). exists (fg st), (bg st), (underline st).
  split; [exact Hf|]. split; [exact Hb|exact E].
Qed.

Lemma text_until_prefix_digit (s : string) :
  starts_digit (text_until s) = true -> starts_digit s = true.
Proof.
  destruct s as [|c s]; [discriminate|]. cbn [text_until].
  destruct (style_code (String c s)); [discriminate|]. now cbn.
Qed.

Lemma style_code_x03_digit (s : string) :
  starts_digit s = true -> style_code (String x03 s) <> None.
Proof.
  intros H. unfold style_code. change (Ascii.eqb x03 x02 || Ascii.eqb x03 x1f || Ascii.eqb x03 x0f)
    with false; rewrite Ascii.eqb_refl.
  destruct s as [|d s]; [discriminate|]. cbn in H.
  unfold digits12. rewrite H.
  destruct s as [|d2 s]; [|destruct (is_digit d2)];
    match goal with
    | |- context [comma_digits12 ?t] => destruct (comma_digits12 t) as [[? ?]|]
    end; discriminate.
Qed.

Lemma style_code_none_char (c : ascii) (s : string) :
  style_code (String c s) = None ->
  Ascii.eqb c x02 = false /\ Ascii.eqb c x1f = false
  /\ Ascii.eqb c x0f = false.
Proof.
  unfold style_code.
  destruct (Ascii.eqb c x02), (Ascii.eqb c x1f), (Ascii.eqb c x0f);
    cbn [orb]; intros H; try discriminate H. auto.
Qed.

(** The text in front of the first control sequence holds none. *)
Lemma plain_text_until (s : string) : plain (text_until s) = true.
Proof.
  induction s as [|c s IH]; [reflexivity|].
  cbn [text_until]. destruct (style_code (String c s)) eqn:E; [reflexivity|].
  cbn [plain]. rewrite IH.
  destruct (style_code_none_char _ _ E) as (-> & -> & ->). cbn [negb andb].
  rewrite andb_true_r. apply negb_true_iff.
  destruct (Ascii.eqb c x03) eqn:E3; [|reflexivity]. cbn [andb].
  apply Ascii.eqb_eq in E3. subst c.
  destruct (starts_digit (text_until s)) eqn:D; [|reflexivity].
  apply text_until_prefix_digit in D.
  now apply style_code_x03_digit in D.
Qed.

Lemma text_until_code (s m rest : string) :
  style_code s = Some (m, rest) -> text_until s = EmptyString.
Proof.
  intros H. destruct s as [|c s]; [reflexivity|].
  cbn [text_until]. now rewrite H.
Qed.

Lemma text_until_char (c : ascii) (s : string) :
  style_code (String c s) = None ->
  text_until (String c s) = String c (text_until s).
Proof. intros H. cbn [text_until]. now rewrite H. Qed.

Lemma pairs_from_texts_plain (s : string) :
  forall spec piece,
    plain (piece ++ text_until s) = true ->
    Forall (fun p : string * string => plain (snd p) = true)
           (pairs_from spec piece s).
Proof.
  induction s as [|c s Hc IH|s m rest Hm IH] using token_ind;
    intros spec piece H.
  - rewrite pairs_from_nil. cbn [text_until] in H. rewrite append_nil_r in H.
    constructor; [exact H|constructor].
  - rewrite (pairs_from_char _ _ _ _ Hc). apply IH.
    rewrite (text_until_char _ _ Hc) in H. now rewrite append_assoc.
  - rewrite (pairs_from_code _ _ _ _ _ Hm).
    rewrite (text_until_code _ _ _ Hm), append_nil_r in H.
    constructor; [exact H|]. apply IH. apply plain_text_until.
Qed.

Lemma scan_texts (pairs : list (string * string)) :
  forall st r, In r (scan st pairs) -> In (fst r) (map snd pairs).
Proof.
  induction pairs as [|[spec sub] pairs IH]; intros st r H; [contradiction|].
  cbn [scan] in H. apply in_app_or in H. destruct H as [H|H].
  - destruct sub; cbn in H; [contradiction|].
    destruct H as [<-|[]]. now left.
  - right. eapply IH; eauto.
Qed.

(** X2.  No run of [parse_text] has a control sequence in its text: the text
    holds no [\x02], [\x1f] or [\x0f], and a [\x03] only where no digit
    follows it. *)
Theorem parse_text_runs_plain (text : string) :
  Forall (fun r : run => plain (fst r) = true) (fst (parse_text text)).
Proof.
  rewrite parse_text_scan. cbn [fst]. apply Forall_forall. intros r H.
  apply scan_texts in H. apply in_map_iff in H. destruct H as (p & <- & Hp).
  pose proof (pairs_from_texts_plain text EmptyString EmptyString
                                     (plain_text_until text)) as Hall.
  rewrite Forall_forall in Hall. now apply Hall.
Qed.

End ParseTextMore.

(* ================================================================== *)
(** ** More properties of [find_and_tag_urls] *)
(* ================================================================== *)

Module UrlMore.
Import PyStr Re TextwidgetTags Spec ReFacts TokenFacts UrlFacts.

(** *** What the URL never contains *)

Lemma mem_prefix (c : ascii) (u s : string) :
  prefix_of u s -> mem c s = false -> mem c u = false.
Proof.
  intros [r ->]. induction u as [|d u IH]; [reflexivity|].
  cbn [append mem]. intros H. apply orb_false_iff in H. destruct H as [-> H].
  now apply IH.
Qed.

Lemma split_first_no_sep (sep : ascii) (s : string) :
  mem sep (fst (split sep s)) = false.
Proof.
  induction s as [|c s IH]; [reflexivity|].
  cbn [split]. destruct (split sep s) as [h t]. cbn [fst] in IH.
  destruct (Ascii.eqb c sep) eqn:E; cbn [fst mem]; [reflexivity|].
  rewrite IH, orb_false_r. now rewrite Ascii.eqb_sym.
Qed.

Lemma take_line_no_newline (s : string) :
  mem Tk.newline (Tk.take (Tk.line_length s) s) = false.
Proof.
  induction s as [|c s IH]; [reflexivity|].
  cbn [Tk.line_length]. destruct (Ascii.eqb c Tk.newline) eqn:E;
    [reflexivity|].
  cbn [Tk.take mem]. rewrite IH, orb_false_r. now rewrite Ascii.eqb_sym.
Qed.

Lemma get_line (w : Tk.text) (i : nat) :
  Tk.get w i (Tk.lineend w i)
  = Tk.take (Tk.line_length (Tk.skip i (Tk.content w)))
            (Tk.skip i (Tk.content w)).
Proof. unfold Tk.lineend. apply get_from. Qed.

(** X3.  The URL taken at an index holds no space, no apostrophe, no double
    quote, no backtick and no newline, whatever the text at that index. *)
Theorem url_without_separators (w : Tk.text) (i : nat) :
  mem " " (url_at w i) = false
  /\ mem apostrophe (url_at w i) = false
  /\ mem double_quote (url_at w i) = false
  /\ mem backtick (url_at w i) = false
  /\ mem Tk.newline (url_at w i) = false.
Proof.
  unfold url_at. set (line := Tk.get w i (Tk.lineend w i)).
  pose proof (strip_url_prefix (cut_url line)) as Hs.
  unfold cut_url in *.
  set (u1 := fst (split " " line)) in *.
  set (u2 := fst (split apostrophe u1)) in *.
  set (u3 := fst (split double_quote u2)) in *.
  set (u4 := fst (split backtick u3)) in *.
  assert (P43 : prefix_of u4 u3) by apply split_first_prefix.
  assert (P32 : prefix_of u3 u2) by apply split_first_prefix.
  assert (P21 : prefix_of u2 u1) by apply split_first_prefix.
  assert (P10 : prefix_of u1 line) by apply split_first_prefix.
  repeat split; apply (mem_prefix _ _ _ Hs).
  - apply (mem_prefix _ _ _ P43), (mem_prefix _ _ _ P32),
      (mem_prefix _ _ _ P21). apply split_first_no_sep.
  - apply (mem_prefix _ _ _ P43), (mem_prefix _ _ _ P32).
    apply split_first_no_sep.
  - apply (mem_prefix _ _ _ P43). apply split_first_no_sep.
  - apply split_first_no_sep.
  - apply (mem_prefix _ _ _ P43), (mem_prefix _ _ _ P32),
      (mem_prefix _ _ _ P21), (mem_prefix _ _ _ P10).
    unfold line. rewrite get_line. apply take_line_no_newline.
Qed.

(** *** The ranges the loop adds *)

Lemma chain_lower (stop lo lo' : nat) (l : list (string * nat * nat)) :
  lo' <= lo -> chain stop lo l -> chain stop lo' l.
Proof.
  destruct l as [|[[n a] b] l]; [easy|]. cbn [chain]. intros H (H1 & H2). 
  split; [lia|exact H2].
Qed.

Section Ranges.
Variable search : Tk.text -> nat -> nat -> option nat.
Hypothesis Hsearch : in_range_search search.

Lemma tag_next_url_chain (w w' : Tk.text) (a stop next : nat) :
  tag_next_url search w a stop = Some (w', next) ->
  Tk.content w' = Tk.content w
  /\ a < next
  /\ exists added,
      Tk.tags w' = Tk.tags w ++ added
      /\ Forall (url_tag w) added
      /\ forall l, chain stop next l -> chain stop a (added ++ l).
Proof.
  unfold tag_next_url. destruct (search w a stop) as [i|] eqn:Hs;
    [|discriminate].
  fold (url_at w i). intros H. inversion H; subst; clear H.
  apply Hsearch in Hs. destruct Hs as [Hai His].
  split; [apply tag_add_content|]. split; [lia|].
  unfold Tk.tag_add.
  destruct (Nat.ltb i (i + String.length (url_at w i))) eqn:L.
  - exists [("url", i, i + String.length (url_at w i))].
    split; [reflexivity|]. split.
    + constructor; [|constructor]. cbn. split; [reflexivity|].
      split; [reflexivity|apply get_url_at].
    + intros l Hl. cbn [app chain]. apply Nat.ltb_lt in L.
      repeat split; try lia. eapply chain_lower; [|exact Hl]. lia.
  - exists []. split; [now rewrite app_nil_r|]. split; [constructor|].
    intros l Hl. cbn [app]. eapply chain_lower; [|exact Hl]. lia.
Qed.

Lemma url_loop_chain (fuel : nat) :
  forall w a stop,
  exists added,
    url_loop search fuel w a stop
    = Tk.mkText (Tk.content w) (Tk.tags w ++ added)
    /\ Forall (url_tag w) added
    /\ chain stop a added.
Proof.
  induction fuel as [|fuel IH]; intros w a stop.
  - exists []. rewrite app_nil_r. destruct w. repeat split. constructor.
  - cbn [url_loop].
    destruct (tag_next_url search w a stop) as [[w' next]|] eqn:E.
    + apply tag_next_url_chain in E.
      destruct E as (Hc & _ & added1 & Ht & Hall1 & Hchain).
      destruct (IH w' next stop) as (added2 & -> & Hall2 & Hc2).
      exists (added1 ++ added2). rewrite Hc, Ht, <- app_assoc.
      split; [reflexivity|]. split; [|now apply Hchain].
      apply Forall_app. split; [exact Hall1|].
      eapply Forall_impl; [|exact Hall2].
      intros tag. now apply url_tag_content.
    + exists []. rewrite app_nil_r. destruct w. repeat split. constructor.
Qed.

End Ranges.

(** X4.  With a search that answers inside the range it is given, the tags
    the loop adds come in increasing order: each starts at or after [start]
    and before [stop], holds at least one character, covers the URL taken at
    its first index, and ends at least one character before the next one
    starts. *)
Theorem url_tags_increasing
        (search : Tk.text -> nat -> nat -> option nat) (fuel : nat)
        (w : Tk.text) (start stop : nat) :
  in_range_search search ->
  exists added,
    find_and_tag_urls search fuel w start stop
    = Tk.mkText (Tk.content w) (Tk.tags w ++ added)
    /\ Forall (url_tag w) added
    /\ chain stop start added.
Proof. intros H. now apply url_loop_chain. Qed.

Lemma url_tags_increasing_witness :
  exists added,
    find_and_tag_urls search_url 61 sample_widget 0 60
    = Tk.mkText (Tk.content sample_widget) (Tk.tags sample_widget ++ added)
    /\ Forall (url_tag sample_widget) added
    /\ chain 60 0 added.
Proof.
  apply (url_tags_increasing search_url 61 sample_widget 0 60).
  exact search_url_in_range.
Defined.

(** *** The match is kept *)

Lemma forall_chars_app (P : ascii -> bool) (a b : string) :
  forall_chars P (a ++ b) = forall_chars P a && forall_chars P b.
Proof.
  induction a as [|c a IH]; [reflexivity|].
  cbn [append forall_chars]. now rewrite IH, andb_assoc.
Qed.

(** What a match consumes: a prefix of the string, made of characters the
    pattern allows, at least as long as the pattern requires. *)
Lemma rmatch_consumes {A : Type} (P : ascii -> bool) (r : regex) :
  chars_ok P r ->
  forall (s : string) (caps : captures) (k : string -> captures -> option A)
         (x : A),
    rmatch r s caps k = Some x ->
    exists m s1 caps1,
      s = (m ++ s1)%string /\ forall_chars P m = true
      /\ min_len r <= String.length m /\ k s1 caps1 = Some x.
Proof.
  induction r as [c|lo hi|r1 IH1 r2 IH2|r1 IH1 r2 IH2|r IH lo hi|i r IH];
    intros Hok s caps k x H; cbn [rmatch] in H; cbn [chars_ok min_len] in *.
  - destruct s as [|c' s']; [discriminate|].
    destruct (Ascii.eqb c' c) eqn:E; [|discriminate].
    apply Ascii.eqb_eq in E. subst c'.
    exists (String c EmptyString), s', caps. cbn. rewrite Hok.
    repeat split; auto.
  - destruct s as [|c' s']; [discriminate|].
    destruct (in_range lo hi c') eqn:E; [|discriminate].
    exists (String c' EmptyString), s', caps. cbn. rewrite (Hok _ E).
    repeat split; auto.
  - destruct Hok as [Hok1 Hok2].
    apply (IH1 Hok1) in H. destruct H as (m1 & s1 & caps1 & -> & P1 & L1 & H).
    apply (IH2 Hok2) in H. destruct H as (m2 & s2 & caps2 & -> & P2 & L2 & H).
    exists (m1 ++ m2)%string, s2, caps2.
    rewrite append_assoc, forall_chars_app, P1, P2, length_append.
    repeat split; auto. lia.
  - destruct Hok as [Hok1 Hok2].
    destruct (rmatch r1 s caps k) eqn:E.
    + inversion H; subst. apply (IH1 Hok1) in E.
      destruct E as (m & s1 & caps1 & -> & P1 & L1 & E).
      exists m, s1, caps1. repeat split; auto. lia.
    + apply (IH2 Hok2) in H.
      destruct H as (m & s1 & caps1 & -> & P1 & L1 & H).
      exists m, s1, caps1. repeat split; auto. lia.
  - revert lo s caps H.
    induction hi as [|hi IHhi]; intros lo s caps H.
    + destruct lo; [|discriminate].
      exists EmptyString, s, caps. repeat split; auto.
    + match type of H with
      | match ?t with _ => _ end = _ => destruct t eqn:E
      end.
      * inversion H; subst. apply (IH Hok) in E.
        destruct E as (m1 & s1 & caps1 & -> & P1 & L1 & E).
        apply IHhi in E.
        destruct E as (m2 & s2 & caps2 & -> & P2 & L2 & E).
        exists (m1 ++ m2)%string, s2, caps2.
        rewrite append_assoc, forall_chars_app, P1, P2, length_append.
        repeat split; auto. destruct lo; cbn in *; lia.
      * destruct lo; [|discriminate].
        exists EmptyString, s, caps. repeat split; auto.
  - apply (IH Hok) in H. destruct H as (m & s1 & caps1 & -> & P1 & L1 & H).
    eauto 10.
Qed.

Lemma consumed_app (m rest : string) : consumed (m ++ rest) rest = m.
Proof.
  induction m as [|c m IH]; [apply consumed_refl|].
  cbn [append]. rewrite consumed_cons; [now rewrite IH|].
  rewrite length_append. lia.
Qed.

Lemma re_match_consumes (P : ascii -> bool) (r : regex) (s m rest : string) :
  chars_ok P r ->
  re_match r s = Some (m, rest) ->
  s = (m ++ rest)%string /\ forall_chars P m = true
  /\ min_len r <= String.length m.
Proof.
  intros Hok H. unfold re_match in H.
  apply (rmatch_consumes P r Hok) in H.
  destruct H as (m' & s1 & caps1 & -> & P1 & L1 & H).
  inversion H; subst. now rewrite consumed_app.
Qed.

Lemma range_solid (lo hi c x : ascii) :
  in_range lo hi x = false -> in_range lo hi c = true -> Ascii.eqb c x = false.
Proof.
  intros Hx Hc. destruct (Ascii.eqb c x) eqn:E; [|reflexivity].
  apply Ascii.eqb_eq in E. subst c. congruence.
Qed.

Lemma range_url_solid (lo hi : ascii) :
  forallb (fun x => negb (in_range lo hi x))
          [" "%char; apostrophe; double_quote; backtick; Tk.newline;
           "."%char; ","%char; "?"%char; "!"%char; ")"%char] = true ->
  forall c, in_range lo hi c = true -> url_solid c = true.
Proof.
  intros H c Hc. cbn [forallb] in H.
  repeat (apply andb_prop in H; destruct H as [?H H]).
  repeat match goal with
         | H : negb _ = true |- _ => apply negb_true_iff in H
         end.
  unfold url_solid. cbn [mem].
  repeat match goal with
         | H : in_range lo hi ?x = false |- _ =>
             rewrite (range_solid lo hi c x H Hc); clear H
         end.
  reflexivity.
Qed.

Lemma url_regex_solid : chars_ok url_solid url_regex.
Proof.
  unfold url_regex, nocase, Opt. cbn [chars_ok].
  repeat split; try reflexivity; apply range_url_solid; reflexivity.
Qed.

Lemma solid_mem (c : ascii) (m : string) :
  url_solid c = false -> forall_chars url_solid m = true -> mem c m = false.
Proof.
  intros Hc. induction m as [|d m IH]; [reflexivity|].
  cbn [forall_chars mem]. intros H. apply andb_prop in H. destruct H as [Hd H].
  rewrite (IH H), orb_false_r.
  destruct (Ascii.eqb c d) eqn:E; [|reflexivity].
  apply Ascii.eqb_eq in E. subst d. congruence.
Qed.

Lemma solid_ends (chars m : string) :
  forall_chars (fun c => negb (url_solid c)) chars = true ->
  forall_chars url_solid m = true ->
  ends_in chars m = false.
Proof.
  intros Hchars. induction m as [|d m IH]; [reflexivity|].
  cbn [forall_chars]. intros H. apply andb_prop in H. destruct H as [Hd H].
  destruct m as [|e m]; [|exact (IH H)].
  cbn [ends_in]. clear IH H.
  induction chars as [|x chars IHc]; [reflexivity|].
  cbn [forall_chars mem] in *. apply andb_prop in Hchars.
  destruct Hchars as [Hx Hchars]. rewrite (IHc Hchars), orb_false_r.
  destruct (Ascii.eqb d x) eqn:E; [|reflexivity].
  apply Ascii.eqb_eq in E. subst x. apply negb_true_iff in Hx. congruence.
Qed.

Lemma take_line_keeps (m r : string) :
  mem Tk.newline m = false ->
  prefix_of m (Tk.take (Tk.line_length (m ++ r)) (m ++ r)).
Proof.
  induction m as [|c m IH]; [now eexists|].
  cbn [mem append Tk.line_length]. intros H.
  apply orb_false_iff in H. destruct H as [Hc H].
  rewrite Ascii.eqb_sym, Hc. cbn [Tk.take].
  destruct (IH H) as [t Ht]. exists t. cbn [append]. now rewrite <- Ht.
Qed.

Lemma split_first_keeps (sep : ascii) (m s : string) :
  mem sep m = false -> prefix_of m s -> prefix_of m (fst (split sep s)).
Proof.
  intros H [r ->]. induction m as [|c m IH]; [now eexists|].
  cbn [mem] in H. apply orb_false_iff in H. destruct H as [Hc H].
  cbn [append split]. destruct (split sep (m ++ r)) as [h t] eqn:E.
  rewrite Ascii.eqb_sym, Hc. cbn [fst] in *.
  destruct (IH H) as [u Hu]. exists u. cbn [append]. now rewrite <- Hu.
Qed.

Lemma rstrip_keeps (chars m s : string) :
  m <> EmptyString -> ends_in chars m = false ->
  prefix_of m s -> prefix_of m (rstrip chars s).
Proof.
  intros Hm He [r ->]. induction m as [|c m IH]; [contradiction|].
  cbn [append rstrip]. destruct m as [|d m].
  - cbn [ends_in] in He. cbn [append].
    destruct (rstrip chars r) as [|e t]; [rewrite He|]; now eexists.
  - destruct IH as [u Hu]; [discriminate|exact He|].
    rewrite Hu. cbn [append]. exists u. reflexivity.
Qed.

(** X5.  Where the pattern [https?://[a-z0-9:]] matches, in any mix of upper
    and lower case, the URL taken there starts with the whole match: the
    cuts and the stripping never reach into it, and the URL is at least 8
    characters long. *)
Theorem url_keeps_match (w : Tk.text) (i : nat) (m rest : string) :
  re_match url_regex (Tk.skip i (Tk.content w)) = Some (m, rest) ->
  prefix_of m (url_at w i) /\ 8 <= String.length (url_at w i).
Proof.
  intros H. apply (re_match_consumes url_solid) in H; [|apply url_regex_solid].
  destruct H as (E & Hsolid & Hlen).
  change (min_len url_regex) with 8 in Hlen.
  assert (Hne : m <> EmptyString) by (intros ->; cbn in Hlen; lia).
  assert (Hp : prefix_of m (url_at w i)).
  { unfold url_at, strip_url, cut_url. rewrite get_line, E.
    apply rstrip_keeps;
      [exact Hne|apply solid_ends; [reflexivity|exact Hsolid]|].
    match goal with
    | |- prefix_of m (if ?b then _ else _) => destruct b
    end.
    - apply rstrip_keeps;
        [exact Hne|apply solid_ends; [reflexivity|exact Hsolid]|].
      apply rstrip_keeps;
        [exact Hne|apply solid_ends; [reflexivity|exact Hsolid]|].
      repeat (apply split_first_keeps;
              [apply solid_mem; [reflexivity|exact Hsolid]|]).
      apply take_line_keeps. apply solid_mem; [reflexivity|exact Hsolid].
    - apply rstrip_keeps;
        [exact Hne|apply solid_ends; [reflexivity|exact Hsolid]|].
      repeat (apply split_first_keeps;
              [apply solid_mem; [reflexivity|exact Hsolid]|]).
      apply take_line_keeps. apply solid_mem; [reflexivity|exact Hsolid]. }
  split; [exact Hp|]. destruct Hp as [t ->]. rewrite length_append. lia.
Qed.

Lemma url_keeps_match_witness :
  prefix_of "http://e" (url_at sample_widget 5)
  /\ 8 <= String.length (url_at sample_widget 5).
Proof.
  apply (url_keeps_match sample_widget 5 "http://e" "xample.com/a). and HTTPS://x.org/wiki_(y)), ok").
  reflexivity.
Defined.

End UrlMore.

(* ================================================================== *)
(** ** Properties of [_on_link_clicked] *)
(* ================================================================== *)

Module Clicks.
Import PyStr Re TextwidgetTags Spec UrlFacts UrlMore.

Lemma prevrange_found (l : list (string * nat * nat)) (name : string)
      (index : nat) :
  forall best a b,
    Tk.prevrange l name index best = Some (a, b) ->
    best = Some (a, b) \/ (In (name, a, b) l /\ a < index).
Proof.
  induction l as [|[[n i] j] l IH]; intros best a b H; [now left|].
  cbn [Tk.prevrange] in H. apply IH in H. destruct H as [H|[H1 H2]].
  - destruct (String.eqb n name) eqn:En; cbn [andb] in H; [|now left].
    destruct (Nat.ltb i index) eqn:Ei; cbn [andb] in H; [|now left].
    match type of H with
    | (if ?c then _ else _) = _ => destruct c; [|now left]
    end.
    inversion H; subst. right. apply String.eqb_eq in En. subst n.
    apply Nat.ltb_lt in Ei. split; [now left|exact Ei].
  - right. split; [now right|exact H2].
Qed.

Lemma prevrange_latest (l : list (string * nat * nat)) (name : string)
      (index : nat) :
  forall best a' b',
    best = Some (a', b') \/ (In (name, a', b') l /\ a' < index) ->
    exists a b, Tk.prevrange l name index best = Some (a, b) /\ a' <= a.
Proof.
  induction l as [|[[n i] j] l IH]; intros best a' b' H.
  - destruct H as [->|[[] _]]. exists a', b'. split; [reflexivity|lia].
  - cbn [Tk.prevrange].
    destruct H as [->|[[E|Hin] Hlt]].
    + destruct (String.eqb n name && Nat.ltb i index && Nat.ltb a' i) eqn:C.
      * destruct (IH (Some (i, j)) i j (or_introl eq_refl)) as (a & b & E & L).
        exists a, b. split; [exact E|].
        apply andb_prop in C. destruct C as [_ C]. apply Nat.ltb_lt in C. lia.
      * apply (IH (Some (a', b')) a' b'). now left.
    + inversion E; subst. rewrite String.eqb_refl.
      apply Nat.ltb_lt in Hlt. rewrite Hlt. cbn [andb].
      destruct best as [[i0 j0]|].
      * destruct (Nat.ltb i0 a') eqn:C.
        -- apply (IH (Some (a', b')) a' b'). now left.
        -- destruct (IH (Some (i0, j0)) i0 j0 (or_introl eq_refl))
             as (a & b & E' & L).
           exists a, b. split; [exact E'|]. apply Nat.ltb_ge in C. lia.
      * apply (IH (Some (a', b')) a' b'). now left.
    + apply (IH _ a' b'). right. now split.
Qed.

Lemma tag_prevrange_none (w : Tk.text) (name : string) (index : nat) :
  Tk.tag_prevrange w name index = None <->
  (forall a b, In (name, a, b) (Tk.tags w) -> index <= a).
Proof.
  unfold Tk.tag_prevrange. split.
  - intros H a b Hin. destruct (Nat.lt_ge_cases a index) as [L|L]; [|exact L].
    destruct (prevrange_latest (Tk.tags w) name index None a b)
      as (a0 & b0 & E & _); [right; now split|congruence].
  - intros H. destruct (Tk.prevrange (Tk.tags w) name index None)
      as [[a b]|] eqn:E; [|reflexivity].
    apply prevrange_found in E. destruct E as [E|[Hin L]]; [discriminate|].
    apply H in Hin. lia.
Qed.

Lemma tag_prevrange_inside (w : Tk.text) (name : string) (a b p : nat) :
  ranges_apart name (Tk.tags w) ->
  In (name, a, b) (Tk.tags w) ->
  a <= p -> p < b ->
  Tk.tag_prevrange w name (p + 1) = Some (a, b).
Proof.
  intros Hapart Hin Hap Hpb. unfold Tk.tag_prevrange.
  destruct (prevrange_latest (Tk.tags w) name (p + 1) None a b)
    as (a0 & b0 & E & L); [right; split; [exact Hin|lia]|].
  rewrite E. pose proof (prevrange_found _ _ _ _ _ _ E) as [F|[Hin0 L0]];
    [discriminate|].
  destruct (Hapart a b a0 b0 Hin Hin0) as [_ [[-> ->]|[H|H]]];
    [reflexivity|lia|].
  destruct (Hapart a0 b0 a b Hin0 Hin) as [Hne _]. lia.
Qed.

Lemma on_link_clicked_range_aux {R : Type} (tag : string)
      (link_click_callback : string -> string -> R) (ev : event) :
  (_on_link_clicked tag link_click_callback ev = inl AssertionError <->
   (forall a b, In (tag, a, b) (Tk.tags (widget ev)) -> current ev < a))
  /\ (forall a b,
        ranges_apart tag (Tk.tags (widget ev)) ->
        In (tag, a, b) (Tk.tags (widget ev)) ->
        a <= current ev -> current ev < b ->
        _on_link_clicked tag link_click_callback ev
        = inr (link_click_callback tag (Tk.get (widget ev) a b))).
Proof.
  split.
  - unfold _on_link_clicked.
    destruct (Tk.tag_prevrange (widget ev) tag (current ev + 1))
      as [[a0 b0]|] eqn:E.
    + split; [discriminate|]. intros H.
      assert (N : Tk.tag_prevrange (widget ev) tag (current ev + 1) = None).
      { apply tag_prevrange_none. intros a b Hin. apply H in Hin. lia. }
      congruence.
    + split; [|reflexivity]. intros _ a b Hin.
      apply (proj1 (tag_prevrange_none _ _ _) E) in Hin. lia.
  - intros a b Hapart Hin Ha Hb. unfold _on_link_clicked.
    now rewrite (tag_prevrange_inside _ _ _ _ _ Hapart Hin Ha Hb).
Qed.

(** X6.  A click is answered from the range of the tag that starts last at
    or before the clicked character.  The assertion fails exactly when no
    range of the tag starts at or before that character.  When the ranges of
    the tag are apart, a click on any character of a range, from its first
    to its last, calls the callback with the tag and the text of that whole
    range. *)
Theorem on_link_clicked_range {R : Type} (tag : string)
        (link_click_callback : string -> string -> R) (ev : event) :
  (_on_link_clicked tag link_click_callback ev = inl AssertionError <->
   (forall a b, In (tag, a, b) (Tk.tags (widget ev)) -> current ev < a))
  /\ (forall a b,
        ranges_apart tag (Tk.tags (widget ev)) ->
        In (tag, a, b) (Tk.tags (widget ev)) ->
        a <= current ev -> current ev < b ->
        _on_link_clicked tag link_click_callback ev
        = inr (link_click_callback tag (Tk.get (widget ev) a b))).
Proof. apply on_link_clicked_range_aux. Qed.

Lemma on_link_clicked_range_witness :
  _on_link_clicked "url" (fun tag text => (tag, text))
                   (mkEvent (Tk.mkText "see http://a.b/c and http://d.e now"
                                       [("url", 4, 16); ("url", 21, 31)])
                            15)
  = inr ("url", "http://a.b/c").
Proof.
  apply (proj2 (on_link_clicked_range
                  "url" (fun tag text => (tag, text))
                  (mkEvent (Tk.mkText "see http://a.b/c and http://d.e now"
                                      [("url", 4, 16); ("url", 21, 31)])
                           15))
               4 16).
  - intros a b a' b' H H'. cbn in H, H'.
    destruct H as [H|[H|[]]]; destruct H' as [H'|[H'|[]]];
      inversion H; inversion H'; subst; lia.
  - cbn. now left.
  - cbn. lia.
  - cbn. lia.
Defined.

Lemma chain_starts (stop : nat) (l : list (string * nat * nat)) :
  forall lo n a b, chain stop lo l -> In (n, a, b) l -> lo <= a /\ a < b.
Proof.
  induction l as [|[[n0 a0] b0] l IH]; intros lo n a b H Hin; [contradiction|].
  cbn [chain] in H. destruct H as (H1 & H2 & H3 & H4).
  destruct Hin as [E|Hin].
  - inversion E; subst. lia.
  - destruct (IH _ _ _ _ H4 Hin). lia.
Qed.

Lemma chain_apart (stop : nat) (name : string)
      (l : list (string * nat * nat)) :
  forall lo, chain stop lo l -> ranges_apart name l.
Proof.
  induction l as [|[[n0 a0] b0] l IH]; intros lo H a b a' b' Hin Hin';
    [contradiction|].
  cbn [chain] in H. destruct H as (H1 & H2 & H3 & H4).
  destruct Hin as [E|Hin]; destruct Hin' as [E'|Hin'].
  - inversion E; inversion E'; subst. split; [lia|now left].
  - inversion E; subst. destruct (chain_starts _ _ _ _ _ _ H4 Hin').
    split; [lia|]. right. left. lia.
  - inversion E'; subst. destruct (chain_starts _ _ _ _ _ _ H4 Hin).
    split; [lia|]. right. right. lia.
  - exact (IH _ H4 a b a' b' Hin Hin').
Qed.

(** X7.  On a widget without [url] ranges that [find_and_tag_urls] has
    tagged, with a search that answers inside its range, a click on any
    character of a tagged URL, from its first to its last, calls the
    callback with ["url"] and that URL. *)
Theorem click_on_tagged_url {R : Type}
        (search : Tk.text -> nat -> nat -> option nat) (fuel : nat)
        (w : Tk.text) (start stop : nat)
        (link_click_callback : string -> string -> R) (a b p : nat) :
  in_range_search search ->
  (forall a0 b0, ~ In ("url", a0, b0) (Tk.tags w)) ->
  In ("url", a, b) (Tk.tags (find_and_tag_urls search fuel w start stop)) ->
  a <= p -> p < b ->
  _on_link_clicked "url" link_click_callback
                   (mkEvent (find_and_tag_urls search fuel w start stop) p)
  = inr (link_click_callback "url" (url_at w a)).
Proof.
  intros Hs Hfresh Hin Ha Hb.
  destruct (url_loop_chain search Hs fuel w start stop)
    as (added & E & Hall & Hchain).
  unfold find_and_tag_urls in *. rewrite E in *. cbn [Tk.tags] in Hin.
  assert (Hadded : In ("url", a, b) added).
  { apply in_app_or in Hin. destruct Hin as [Hin|Hin]; [|exact Hin].
    now apply Hfresh in Hin. }
  assert (Hapart : ranges_apart "url" (Tk.tags w ++ added)).
  { intros x y x' y' H H'.
    apply in_app_or in H. destruct H as [H|H]; [now apply Hfresh in H|].
    apply in_app_or in H'. destruct H' as [H'|H']; [now apply Hfresh in H'|].
    exact (chain_apart _ _ _ _ Hchain x y x' y' H H'). }
  rewrite (proj2 (on_link_clicked_range_aux
                    "url" link_click_callback
                    (mkEvent (Tk.mkText (Tk.content w) (Tk.tags w ++ added)) p))
                 a b Hapart Hin Ha Hb).
  cbn [widget]. rewrite Forall_forall in Hall.
  destruct (Hall _ Hadded) as (_ & _ & G).
  unfold Tk.get in *. cbn [Tk.content]. now rewrite G.
Qed.

Lemma click_on_tagged_url_witness :
  _on_link_clicked "url" (fun tag text => (tag, text))
                   (mkEvent (find_and_tag_urls search_url 61 sample_widget 0 60)
                            24)
  = inr ("url", url_at sample_widget 5).
Proof.
  apply (click_on_tagged_url search_url 61 sample_widget 0 60
                             (fun tag text => (tag, text)) 5 25 24).
  - exact search_url_in_range.
  - intros a0 b0 H. exact H.
  - vm_compute. now left.
  - lia.
  - lia.
Defined.

End Clicks.

(* ================================================================== *)
(** ** Properties of [config_tags] *)
(* ================================================================== *)

Module ConfigTags.
Import PyStr Re TextwidgetTags Spec ParseTextMore.

(** *** The priority order with other tags below *)

Lemma defined_app (n : string) (l0 l : list string) :
  Tk.defined n (l0 ++ l) = Tk.defined n l0 || Tk.defined n l.
Proof. apply existsb_app. Qed.

Lemma define_fresh (n : string) (l0 l : list string) :
  Tk.defined n l0 = false -> Tk.define n (l0 ++ l) = l0 ++ Tk.define n l.
Proof.
  intros H. unfold Tk.define. rewrite defined_app, H. cbn [orb].
  destruct (Tk.defined n l); [reflexivity|symmetry; apply app_assoc].
Qed.

Lemma not_defined_cons (n x : string) (l : list string) :
  Tk.defined n (x :: l) = false ->
  String.eqb x n = false /\ Tk.defined n l = false.
Proof.
  unfold Tk.defined. cbn [existsb]. intros H.
  apply orb_false_iff in H. destruct H as [H1 H2].
  split; [now rewrite String.eqb_sym|exact H2].
Qed.

Lemma remove_fresh (n : string) (l0 l : list string) :
  Tk.defined n l0 = false -> Tk.remove n (l0 ++ l) = l0 ++ Tk.remove n l.
Proof.
  induction l0 as [|x l0 IH]; intros H; [reflexivity|].
  apply not_defined_cons in H. destruct H as [Hx H].
  cbn [app Tk.remove]. now rewrite Hx, IH.
Qed.

Lemma insert_below_fresh (n b : string) (l0 l : list string) :
  Tk.defined b l0 = false ->
  Tk.insert_below n b (l0 ++ l) = l0 ++ Tk.insert_below n b l.
Proof.
  induction l0 as [|x l0 IH]; intros H; [reflexivity|].
  apply not_defined_cons in H. destruct H as [Hx H].
  cbn [app Tk.insert_below]. now rewrite Hx, IH.
Qed.

Lemma insert_above_fresh (n b : string) (l0 l : list string) :
  Tk.defined b l0 = false ->
  Tk.insert_above n b (l0 ++ l) = l0 ++ Tk.insert_above n b l.
Proof.
  induction l0 as [|x l0 IH]; intros H; [reflexivity|].
  apply not_defined_cons in H. destruct H as [Hx H].
  cbn [app Tk.insert_above]. now rewrite Hx, IH.
Qed.

Lemma lower_fresh (n b : string) (l0 l : list string) :
  Tk.defined n l0 = false -> Tk.defined b l0 = false ->
  Tk.lower n b (l0 ++ l) = option_map (app l0) (Tk.lower n b l).
Proof.
  intros Hn Hb. unfold Tk.lower. rewrite !defined_app, Hn, Hb. cbn [orb].
  destruct (Tk.defined n l && Tk.defined b l); [|reflexivity].
  destruct (String.eqb n b); [reflexivity|]. cbn [option_map].
  now rewrite remove_fresh, insert_below_fresh.
Qed.

Lemma raise_fresh (n b : string) (l0 l : list string) :
  Tk.defined n l0 = false -> Tk.defined b l0 = false ->
  Tk.raise n b (l0 ++ l) = option_map (app l0) (Tk.raise n b l).
Proof.
  intros Hn Hb. unfold Tk.raise. rewrite !defined_app, Hn, Hb. cbn [orb].
  destruct (Tk.defined n l && Tk.defined b l); [|reflexivity].
  destruct (String.eqb n b); [reflexivity|]. cbn [option_map].
  now rewrite remove_fresh, insert_above_fresh.
Qed.

Lemma fresh_defined (l0 : list string) (n : string) :
  (forall t, In t priority_order -> ~ In t l0) ->
  existsb (String.eqb n) priority_order = true ->
  Tk.defined n l0 = false.
Proof.
  intros H Hn. apply existsb_exists in Hn. destruct Hn as (t & Ht & E).
  apply String.eqb_eq in E. subst t.
  destruct (Tk.defined n l0) eqn:D; [|reflexivity].
  apply existsb_exists in D. destruct D as (t & Ht' & E).
  apply String.eqb_eq in E. subst t. now apply H in Ht.
Qed.

Ltac fresh_side H := apply (fresh_defined _ _ H); vm_compute; reflexivity.

(** On a list of tags that holds none of those of [config_tags], the tags
    end up in the order [priority_order] above the tags of the list. *)
Lemma config_names_fresh (l0 : list string) :
  (forall t, In t priority_order -> ~ In t l0) ->
  config_names l0 = Some (l0 ++ priority_order).
Proof.
  intros H. rewrite <- (app_nil_r l0) at 1.
  unfold config_names. cbn [fold_left for_each color_names _MIRC_COLORS].
  repeat first
    [ match goal with
      | |- context [Tk.define ?n (l0 ++ ?l)] =>
          rewrite (define_fresh n l0 l) by fresh_side H;
          let v := eval vm_compute in (Tk.define n l) in
          change (Tk.define n l) with v
      | |- context [Tk.lower ?n ?b (l0 ++ ?l)] =>
          rewrite (lower_fresh n b l0 l) by fresh_side H;
          let v := eval vm_compute in (Tk.lower n b l) in
          change (Tk.lower n b l) with v; cbn [option_map]
      | |- context [Tk.raise ?n ?b (l0 ++ ?l)] =>
          rewrite (raise_fresh n b l0 l) by fresh_side H;
          let v := eval vm_compute in (Tk.raise n b l) in
          change (Tk.raise n b l) with v; cbn [option_map]
      end ].
  reflexivity.
Qed.

(** *** What [config_tags] does to the tags and to their options *)

Lemma for_each_proj {A W V : Type} (f : W -> V)
      (body : W -> A -> option W) (body' : V -> A -> option V)
      (l : list A) :
  (forall w x, option_map f (body w x) = body' (f w) x) ->
  forall w, option_map f (for_each body l w) = for_each body' l (f w).
Proof.
  intros Hb. induction l as [|x l IH]; intros w; [reflexivity|].
  cbn [for_each]. rewrite <- Hb.
  destruct (body w x) as [w'|]; cbn [option_map]; [apply IH|reflexivity].
Qed.

Lemma for_each_kept {A W V : Type} (f : W -> V)
      (body : W -> A -> option W) (g : V -> A -> V) (l : list A) :
  (forall w x w', body w x = Some w' -> f w' = g (f w) x) ->
  forall w w', for_each body l w = Some w' -> f w' = fold_left g l (f w).
Proof.
  intros Hb. induction l as [|x l IH]; intros w w' H.
  - inversion H. reflexivity.
  - cbn [for_each fold_left] in *. destruct (body w x) as [w1|] eqn:E;
      [|discriminate].
    rewrite <- (Hb _ _ _ E). now apply IH.
Qed.

Section Projections.
Context {R : Type}.

Lemma tag_lower_names (w : Tk.window (handler R)) (n b : string) :
  option_map Tk.tag_names (Tk.tag_lower w n b)
  = Tk.lower n b (Tk.tag_names w).
Proof.
  unfold Tk.tag_lower. now destruct (Tk.lower n b (Tk.tag_names w)).
Qed.

Lemma tag_raise_names (w : Tk.window (handler R)) (n b : string) :
  option_map Tk.tag_names (Tk.tag_raise w n b)
  = Tk.raise n b (Tk.tag_names w).
Proof.
  unfold Tk.tag_raise. now destruct (Tk.raise n b (Tk.tag_names w)).
Qed.

Lemma tag_raise_opts (w w' : Tk.window (handler R)) (n b : string) :
  Tk.tag_raise w n b = Some w' -> Tk.tag_opts w' = Tk.tag_opts w.
Proof.
  unfold Tk.tag_raise. destruct (Tk.raise n b (Tk.tag_names w));
    [|discriminate].
  intros H. now inversion H.
Qed.

Lemma tag_lower_opts (w w' : Tk.window (handler R)) (n b : string) :
  Tk.tag_lower w n b = Some w' -> Tk.tag_opts w' = Tk.tag_opts w.
Proof.
  unfold Tk.tag_lower. destruct (Tk.lower n b (Tk.tag_names w));
    [|discriminate].
  intros H. now inversion H.
Qed.

Lemma config_color_names (w : Tk.window (handler R)) (item : nat * string) :
  option_map Tk.tag_names (config_color w item)
  = color_names (Tk.tag_names w) item.
Proof.
  destruct item as [number hexcolor]. unfold config_color, color_names.
  repeat match goal with
         | |- context [match Tk.tag_raise ?w ?n ?b with _ => _ end] =>
             let E := fresh "E" in
             pose proof (tag_raise_names w n b) as E;
             destruct (Tk.tag_raise w n b); cbn [option_map] in E;
             cbn [Tk.tag_names Tk.tag_configure] in E;
             rewrite <- E; [|reflexivity]
         end.
  apply tag_raise_names.
Qed.

Lemma config_color_opts (w w' : Tk.window (handler R))
      (item : nat * string) :
  config_color w item = Some w' ->
  Tk.tag_opts w' = color_opts (Tk.tag_opts w) item.
Proof.
  destruct item as [number hexcolor]. unfold config_color. intros H.
  repeat match type of H with
         | match Tk.tag_raise ?w ?n ?b with _ => _ end = _ =>
             let E := fresh "E" in
             destruct (Tk.tag_raise w n b) eqn:E; [|discriminate H];
             apply tag_raise_opts in E
         end.
  apply tag_raise_opts in H.
  repeat match goal with
         | E : Tk.tag_opts _ = _ |- _ => rewrite E in *; clear E
         end.
  reflexivity.
Qed.

(** The tags after [config_tags] depend on the tags before only. *)
Lemma config_tags_names (w : Tk.window (handler R))
      (cb : string -> string -> R) :
  option_map Tk.tag_names (config_tags w cb) = config_names (Tk.tag_names w).
Proof.
  unfold config_tags, config_names.
  match goal with
  | |- option_map _ (match for_each ?A ?l ?w1 with _ => _ end) = _ =>
      pose proof (for_each_proj Tk.tag_names A
                                (fun names x => Tk.lower x "pinged" names) l
                                (fun v x => tag_lower_names v x "pinged") w1)
        as P; cbn [Tk.tag_names Tk.tag_configure Tk.config_colors] in P;
      cbn [fold_left]; rewrite <- P; clear P;
      destruct (for_each A l w1) as [w2|]; cbn [option_map]; [|reflexivity]
  end.
  match goal with
  | |- option_map _ (match for_each ?A ?l ?w1 with _ => _ end) = _ =>
      pose proof (for_each_proj Tk.tag_names A
                                (fun names x => Tk.raise x "pinged" names) l
                                (fun v x => tag_raise_names v x "pinged") w1)
        as P; rewrite <- P; clear P;
      destruct (for_each A l w1) as [w3|]; cbn [option_map]; [|reflexivity]
  end.
  match goal with
  | |- option_map _ (match for_each ?A ?l ?w1 with _ => _ end) = _ =>
      pose proof (for_each_proj Tk.tag_names A color_names l
                                config_color_names w1)
        as P; rewrite <- P; clear P;
      destruct (for_each A l w1) as [w4|]; cbn [option_map]; [|reflexivity]
  end.
  reflexivity.
Qed.

(** The options after [config_tags] depend on the options before only. *)
Lemma config_tags_opts (w w' : Tk.window (handler R))
      (cb : string -> string -> R) :
  config_tags w cb = Some w' -> Tk.tag_opts w' = config_opts (Tk.tag_opts w).
Proof.
  unfold config_tags, config_opts. intros H.
  match type of H with
  | match for_each ?A ?l ?w1 with _ => _ end = _ =>
      destruct (for_each A l w1) as [w2|] eqn:E2; [|discriminate H];
      apply (for_each_kept Tk.tag_opts A (fun o _ => o) l
                           (fun v x v' => tag_lower_opts v v' x "pinged"))
        in E2
  end.
  match type of H with
  | match for_each ?A ?l ?w1 with _ => _ end = _ =>
      destruct (for_each A l w1) as [w3|] eqn:E3; [|discriminate H];
      apply (for_each_kept Tk.tag_opts A (fun o _ => o) l
                           (fun v x v' => tag_raise_opts v v' x "pinged"))
        in E3
  end.
  match type of H with
  | match for_each ?A ?l ?w1 with _ => _ end = _ =>
      destruct (for_each A l w1) as [w4|] eqn:E4; [|discriminate H];
      apply (for_each_kept Tk.tag_opts A color_opts l
                           (fun v x v' => config_color_opts v v' x))
        in E4
  end.
  cbn [for_each] in H. inversion H; subst; clear H.
  cbn [Tk.tag_opts Tk.tag_bind]. rewrite E4, E3, E2. reflexivity.
Qed.

End Projections.

(** X8.  On a widget that has none of the tags of [config_tags] yet,
    [config_tags] raises no [TclError] and leaves the tags in this order of
    priority, lowest first: the tags the widget had, then [url],
    [underline], [info], [error], [sent-privmsg], [received-privmsg], then
    the colour tags from [background-15], [foreground-15] down to
    [background-0], [foreground-0], then [pinged], [other-nick],
    [self-nick], [channel] and [history-selection].  So every colour tag
    wins over the two privmsg tags and loses to [pinged]. *)
Theorem config_tags_priority {R : Type} (w : Tk.window (handler R))
        (link_click_callback : string -> string -> R) :
  (forall t, In t priority_order -> ~ In t (Tk.tag_names w)) ->
  exists w',
    config_tags w link_click_callback = Some w'
    /\ Tk.tag_names w' = Tk.tag_names w ++ priority_order.
Proof.
  intros H. pose proof (config_tags_names w link_click_callback) as P.
  rewrite (config_names_fresh _ H) in P.
  destruct (config_tags w link_click_callback) as [w'|]; [|discriminate P].
  exists w'. split; [reflexivity|]. now inversion P.
Qed.

Lemma config_tags_priority_witness :
  exists w',
    config_tags new_widget (fun tag text => (tag, text)) = Some w'
    /\ Tk.tag_names w' = Tk.tag_names new_widget ++ priority_order.
Proof.
  apply (config_tags_priority new_widget (fun tag text => (tag, text))).
  intros t Ht [E|[]]. subst t. vm_compute in Ht.
  repeat (destruct Ht as [Ht|Ht]; [discriminate Ht|]). exact Ht.
Defined.

Lemma run_tags_in_palette (text : string) (r : run) :
  In r (fst (parse_text text)) ->
  exists st, in_palette st /\ snd r = tags_of st.
Proof.
  rewrite ParseFacts.parse_text_scan. cbn [fst]. intros H.
  pose proof (scan_in_palette
                (pairs_from EmptyString EmptyString text) initial
                in_palette_initial) as Hall.
  rewrite Forall_forall in Hall. now apply Hall.
Qed.

Lemma In_single {A : Type} (x y : A) : In x [y] -> x = y.
Proof. intros [H|[]]. now symmetry. Qed.

(** X9.  Every tag that [parse_text] yields has its display option after
    [config_tags]: [underline] is underlined, [foreground-<n>] has the
    colour of [_MIRC_COLORS[n]] as its foreground and [background-<n>] has
    it as its background. *)
Theorem parse_text_tags_configured {R : Type}
        (w w' : Tk.window (handler R))
        (link_click_callback : string -> string -> R)
        (text : string) (r : run) (tag : string) :
  config_tags w link_click_callback = Some w' ->
  In r (fst (parse_text text)) ->
  In tag (snd r) ->
  (tag = "underline" /\ Tk.o_underline (Tk.tag_cget w' tag) = Some true)
  \/ exists n hex,
      dict_get n _MIRC_COLORS = Some hex
      /\ ((tag = ("foreground-" ++ format_d n)%string
           /\ Tk.o_foreground (Tk.tag_cget w' tag) = Some hex)
          \/ (tag = ("background-" ++ format_d n)%string
              /\ Tk.o_background (Tk.tag_cget w' tag) = Some hex)).
Proof.
  intros Hc Hr Ht. apply config_tags_opts in Hc.
  destruct (run_tags_in_palette _ _ Hr) as (st & [Hf Hb] & E).
  rewrite E in Ht. unfold tags_of in Ht.
  unfold Tk.tag_cget. rewrite Hc.
  apply in_app_or in Ht. destruct Ht as [Ht|Ht].
  - destruct (fg st) as [n|]; [|contradiction]. apply In_single in Ht.
    specialize (Hf n eq_refl). right. subst tag. exists n.
    do 16 (destruct n as [|n];
           [eexists; split; [reflexivity|];
            left; split; [reflexivity|vm_compute; reflexivity]|]).
    lia.
  - apply in_app_or in Ht. destruct Ht as [Ht|Ht].
    + destruct (bg st) as [n|]; [|contradiction]. apply In_single in Ht.
      specialize (Hb n eq_refl). right. subst tag. exists n.
      do 16 (destruct n as [|n];
             [eexists; split; [reflexivity|];
              right; split; [reflexivity|vm_compute; reflexivity]|]).
      lia.
    + destruct (underline st); [|contradiction]. apply In_single in Ht.
      subst tag. left. split; [reflexivity|vm_compute; reflexivity].
Qed.

Lemma parse_text_tags_configured_witness :
  exists w',
    config_tags new_widget (fun tag text => (tag, text)) = Some w'
    /\ (("foreground-4" = "underline"
         /\ Tk.o_underline (Tk.tag_cget w' "foreground-4") = Some true)
        \/ exists n hex,
            dict_get n _MIRC_COLORS = Some hex
            /\ (("foreground-4" = ("foreground-" ++ format_d n)%string
                 /\ Tk.o_foreground (Tk.tag_cget w' "foreground-4")
                    = Some hex)
                \/ ("foreground-4" = ("background-" ++ format_d n)%string
                    /\ Tk.o_background (Tk.tag_cget w' "foreground-4")
                       = Some hex))).
Proof.
  eexists. split; [vm_compute; reflexivity|].
  eapply (parse_text_tags_configured
            new_widget _ (fun tag text => (tag, text))
            ("Hello " ++ String x03 "4there" ++ String x0f "!")%string
            ("there", ["foreground-4"]) "foreground-4").
  - vm_compute. reflexivity.
  - vm_compute. right. left. reflexivity.
  - now left.
Defined.

End ConfigTags.
